(** * Secular-equilibrium calculator: path enumeration, branching
      aggregation and the per-ancestor activity/mass computation.

    Shallow embedding of [src/secular_equilibrium/calculator.py].

    - The nuclide database ([radioactivedecay]) is an external collaborator:
      it is a section variable [rd_Nuclide : string -> option nuclide],
      [None] standing for "[rd.Nuclide(name)] raises".
    - Python [float]s are the carrier [F] of an arithmetic signature
      ([Arith]) which states no law: every theorem proved over an arbitrary
      [Arith] holds for binary64 arithmetic as well as for exact arithmetic.
      Two instances are given below, primitive binary64 floats and the
      rationals.  The value [float('inf')], which the code tests for
      explicitly, is the constructor [PosInf] of [ext].
    - The two per-instance caches are threaded explicitly through a small
      state-and-exception monad. *)

From Stdlib Require Import QArith Qabs Qfield.
From Stdlib Require Import PrimFloat.
From stdpp Require Import gmap strings list fin_maps.


(** ** Arithmetic signature *)

(** What the calculator needs of [float]: the constants it writes and the
    operations it applies.  [fdiv] is the quotient for a non-zero divisor;
    Python's check for a zero divisor is [pdiv] below. *)
Class Arith (F : Type) := {
  f0 : F;                      (* 0.0 *)
  f1 : F;                      (* 1.0 *)
  fadd : F -> F -> F;
  fmul : F -> F -> F;
  fdiv : F -> F -> F;
  fltb : F -> F -> bool;       (* x < y *)
  feqb : F -> F -> bool;       (* x == y *)
  fabs : F -> F;
  f_eps : F;                   (* 1e-15 *)
  f_ln2 : F;                   (* math.log(2) *)
  f_avogadro : F;              (* 6.02214076e23 *)
  f_year : F                   (* 365.25 * 24 * 3600 *)
}.

(** A float that may be [float('inf')]. *)
Inductive ext (F : Type) : Type :=
| Fin (x : F)
| PosInf.
Arguments Fin {F} x.
Arguments PosInf {F}.

(** [x / c] for a finite non-zero constant [c]: [inf / c] is [inf]. *)
Definition ext_div_const `{Arith F} (x : ext F) (c : F) : ext F :=
  match x with
  | Fin s => Fin (fdiv s c)
  | PosInf => PosInf
  end.

(** ** Exceptions *)

Inductive exn : Type :=
| ValueError (msg : string)          (* raised by the calculator itself *)
| ZeroDivisionError                  (* float division by 0.0 *)
| NuclideError (name : string).      (* raised by [rd.Nuclide(name)] *)

(** [x / y] on Python floats. *)
Definition pdiv `{Arith F} (x y : F) : exn + F :=
  if feqb y f0 then inl ZeroDivisionError else inr (fdiv x y).

(** ** Strings *)

(** [needle in hay] on Python strings. *)
Fixpoint str_contains (needle hay : string) : bool :=
  if String.prefix needle hay then true
  else match hay with
       | EmptyString => false
       | String _ rest => str_contains needle rest
       end.

Definition msg_invalid_progeny (progeny : string) : string :=
  "Invalid progeny nuclide name: " +:+ progeny.

Definition msg_stable (progeny : string) : string :=
  progeny +:+ " is a stable nuclide and cannot establish secular equilibrium".

Definition msg_not_in_chain (progeny parent : string) : string :=
  progeny +:+ " is not in " +:+ parent +:+ "'s decay chain".

(** ** Data model *)

(** What the calculator reads of an [rd.Nuclide]; the half-life of a
    stable nuclide, [float('inf')], is [PosInf]. *)
Record nuclide (F : Type) := {
  half_life_s : ext F;                (* half_life('s') *)
  atomic_mass : F;
  decay_modes : list string;
  branching_fractions : list F;
  progeny : list string
}.
Arguments half_life_s {F} _.
Arguments atomic_mass {F} _.
Arguments decay_modes {F} _.
Arguments branching_fractions {F} _.
Arguments progeny {F} _.

(** A path entry of [_enumerate_chain_paths]. *)
Record path (F : Type) := {
  nodes : list string;
  path_decay_modes : list string;
  step_branching_fractions : list F;
  chain_branching_ratio : F
}.
Arguments nodes {F} _.
Arguments path_decay_modes {F} _.
Arguments step_branching_fractions {F} _.
Arguments chain_branching_ratio {F} _.

(** A path entry of [_get_branching_info]. *)
Record path_detail (F : Type) := {
  pd_path : path F;
  decay_type_fraction_at_measured : F;
  path_branching_ratio : F
}.
Arguments pd_path {F} _.
Arguments decay_type_fraction_at_measured {F} _.
Arguments path_branching_ratio {F} _.

(** The dictionary [_get_branching_info] returns. *)
Record info (F : Type) := {
  info_branching_ratio : F;
  info_paths : list (path_detail F);
  info_decay_type_fraction : F
}.
Arguments info_branching_ratio {F} _.
Arguments info_paths {F} _.
Arguments info_decay_type_fraction {F} _.

(** The attributes [__init__] sets, caches apart. *)
Record calculator (F : Type) := {
  measured_nuclide : string;
  measured_activity : F;
  parent_nuclides : list string;
  decay_type : option string;
  measured_activity_uncertainty : option F;
  include_paths : bool
}.
Arguments measured_nuclide {F} _.
Arguments measured_activity {F} _.
Arguments parent_nuclides {F} _.
Arguments decay_type {F} _.
Arguments measured_activity_uncertainty {F} _.
Arguments include_paths {F} _.

(** [_branching_cache] and [_decay_fraction_cache]. *)
Record caches (F : Type) := {
  branching_cache : gmap (string * string * option string) (info F);
  decay_fraction_cache : gmap (string * string) F
}.
Arguments branching_cache {F} _.
Arguments decay_fraction_cache {F} _.

Definition empty_caches {F : Type} : caches F :=
  {| branching_cache := ∅; decay_fraction_cache := ∅ |}.

(** The three uncertainty entries of a result; [relative_uncertainty] is
    [None] for Python's [None]. *)
Record uncertainty (F : Type) := {
  activity_uncertainty_Bq : F;
  mass_uncertainty_g : ext F;
  relative_uncertainty : option F
}.
Arguments activity_uncertainty_Bq {F} _.
Arguments mass_uncertainty_g {F} _.
Arguments relative_uncertainty {F} _.

(** A per-ancestor result dictionary; an absent key is [None]. *)
Record result (F : Type) := {
  activity_Bq : F;
  mass_g : ext F;
  branching_ratio : F;
  halflife_yr : ext F;
  res_atomic_mass : option F;
  error : option string;
  res_uncertainty : option (uncertainty F);
  res_paths : option (list (path_detail F));
  total_branching_ratio : option F
}.
Arguments activity_Bq {F} _.
Arguments mass_g {F} _.
Arguments branching_ratio {F} _.
Arguments halflife_yr {F} _.
Arguments res_atomic_mass {F} _.
Arguments error {F} _.
Arguments res_uncertainty {F} _.
Arguments res_paths {F} _.
Arguments total_branching_ratio {F} _.

(** ** The state-and-exception monad: a raised exception keeps the caches
    as they are at the raise. *)

Definition M (F A : Type) : Type := caches F -> (exn + A) * caches F.

Definition ret {F A} (x : A) : M F A := fun st => (inr x, st).

Definition raise {F A} (e : exn) : M F A := fun st => (inl e, st).

Definition bind {F A B} (m : M F A) (k : A -> M F B) : M F B :=
  fun st =>
    match m st with
    | (inl e, st') => (inl e, st')
    | (inr x, st') => k x st'
    end.

(** [try: m except ValueError as exc: ...]: the message of a [ValueError]
    on the left, any other exception propagates. *)
Definition try_ValueError {F A} (m : M F A) : M F (string + A) :=
  fun st =>
    match m st with
    | (inl (ValueError msg), st') => (inr (inl msg), st')
    | (inl e, st') => (inl e, st')
    | (inr x, st') => (inr (inr x), st')
    end.

(** Exceptions alone, for the code that touches no cache. *)
Definition ebind {A B} (m : exn + A) (k : A -> exn + B) : exn + B :=
  match m with
  | inl e => inl e
  | inr x => k x
  end.

Definition lift {F A} (m : exn + A) : M F A := fun st => (m, st).

Declare Scope calc_scope.
Delimit Scope calc_scope with calc.
Notation "'do' x <- m ; k" := (bind m (fun x => k))
  (at level 10, x name, m at level 100, k at level 200) : calc_scope.
Notation "'try' x <- m ; k" := (ebind m (fun x => k))
  (at level 10, x name, m at level 100, k at level 200) : calc_scope.
Local Open Scope calc_scope.

Section Calculator.
Context {F : Type} `{!Arith F}.
Variable rd_Nuclide : string -> option (nuclide F).

Definition MAX_DEPTH : nat := 30.

Definition _is_nuclide_name (name : string) : bool :=
  match rd_Nuclide name with
  | Some _ => true
  | None => false
  end.

(** [zip(a, b, c)]. *)
Fixpoint zip3 {A B C} (a : list A) (b : list B) (c : list C)
  : list (A * B * C) :=
  match a, b, c with
  | x :: a', y :: b', z :: c' => (x, y, z) :: zip3 a' b' c'
  | _, _, _ => []
  end.

(** The inner function [dfs] of [_enumerate_chain_paths], returning the
    entries it appends to [paths], in order.  [budget] is
    [MAX_DEPTH + 1 - depth]: the guard [depth > MAX_DEPTH] is
    [budget = 0], and [depth + 1] is the predecessor of [budget]. *)
Fixpoint dfs (target : string) (budget : nat) (current : string)
    (visited : gset string) (nodes : list string) (modes : list string)
    (step_fractions : list F) (cumulative_ratio : F) : list (path F) :=
  match budget with
  | O => []
  | S budget' =>
      if String.eqb current target then
        [ {| nodes := nodes;
             path_decay_modes := modes;
             step_branching_fractions := step_fractions;
             chain_branching_ratio := cumulative_ratio |} ]
      else
        match rd_Nuclide current with
        | None => []
        | Some nuc =>
            flat_map
              (fun '(mode, fraction, child) =>
                 if negb (_is_nuclide_name child) then []
                 else if bool_decide (child ∈ visited) then []
                 else dfs target budget' child
                        (visited ∪ {[child]})
                        (nodes ++ [child])
                        (modes ++ [mode])
                        (step_fractions ++ [fraction])
                        (fmul cumulative_ratio fraction))
              (zip3 (decay_modes nuc) (branching_fractions nuc)
                    (progeny nuc))
        end
  end.

Definition _enumerate_chain_paths (parent target : string)
  : list (path F) :=
  if String.eqb parent target then
    [ {| nodes := [parent];
         path_decay_modes := [];
         step_branching_fractions := [];
         chain_branching_ratio := f1 |} ]
  else
    dfs target (S MAX_DEPTH) parent {[parent]} [parent] [] [] f1.

(** The loop of [_get_decay_fraction_for_nuclide]. *)
Definition matching_fraction (dt : string) (nuc : nuclide F) : F :=
  fold_left
    (fun acc '(mode, fraction) =>
       if str_contains dt mode then fadd acc fraction else acc)
    (zip (decay_modes nuc) (branching_fractions nuc))
    f0.

Definition _get_decay_fraction_for_nuclide (self : calculator F)
    (name : string) : M F F :=
  match decay_type self with
  | None => ret f1
  | Some dt =>
      fun st =>
        match decay_fraction_cache st !! (name, dt) with
        | Some cached => (inr cached, st)
        | None =>
            match rd_Nuclide name with
            | None => (inl (NuclideError name), st)
            | Some target_nuclide =>
                let matching := matching_fraction dt target_nuclide in
                (inr matching,
                 {| branching_cache := branching_cache st;
                    decay_fraction_cache :=
                      <[(name, dt) := matching]> (decay_fraction_cache st) |})
            end
        end
  end.

(** The loop of [_get_branching_info] over [chain_paths]:
    [(path_details, total_branching_ratio)]. *)
Definition accumulate_paths (decay_type_fraction : F)
    (chain_paths : list (path F)) : list (path_detail F) * F :=
  fold_left
    (fun '(path_details, total) p =>
       let path_ratio := fmul (chain_branching_ratio p) decay_type_fraction in
       (path_details ++
          [ {| pd_path := p;
               decay_type_fraction_at_measured := decay_type_fraction;
               path_branching_ratio := path_ratio |} ],
        fadd total path_ratio))
    chain_paths
    ([], f0).

(** [sort(key=path_branching_ratio, reverse=True)]: a stable sort by
    descending key, written as an insertion sort (the list Python's sort
    returns whenever [<] orders the keys). *)
Fixpoint insert_desc (d : path_detail F) (l : list (path_detail F))
  : list (path_detail F) :=
  match l with
  | [] => [d]
  | d' :: l' =>
      if fltb (path_branching_ratio d) (path_branching_ratio d')
      then d' :: insert_desc d l'
      else d :: d' :: l'
  end.

Definition sort_desc (l : list (path_detail F)) : list (path_detail F) :=
  foldr insert_desc [] l.

(** The body of [_get_branching_info] after a cache miss, up to the
    store into the cache. *)
Definition compute_branching_info (self : calculator F)
    (parent target : string) : M F (info F) :=
  match rd_Nuclide target with
  | None => raise (ValueError (msg_invalid_progeny target))
  | Some progeny_nuclide =>
      match half_life_s progeny_nuclide with
      | PosInf => raise (ValueError (msg_stable target))
      | Fin _ =>
          let chain_paths := _enumerate_chain_paths parent target in
          match chain_paths with
          | [] => raise (ValueError (msg_not_in_chain target parent))
          | _ :: _ =>
              do decay_type_fraction <-
                (match decay_type self with
                 | Some _ =>
                     if negb (String.eqb parent target)
                     then _get_decay_fraction_for_nuclide self target
                     else ret f1
                 | None => ret f1
                 end);
              let '(path_details, total_branching_ratio) :=
                accumulate_paths decay_type_fraction chain_paths in
              if fltb total_branching_ratio f_eps then
                raise (ValueError (msg_not_in_chain target parent))
              else
                ret {| info_branching_ratio := total_branching_ratio;
                       info_paths := sort_desc path_details;
                       info_decay_type_fraction := decay_type_fraction |}
          end
      end
  end.

Definition _get_branching_info (self : calculator F)
    (parent target : string) : M F (info F) :=
  fun st =>
    let cache_key := (parent, target, decay_type self) in
    match branching_cache st !! cache_key with
    | Some cached => (inr cached, st)
    | None =>
        match compute_branching_info self parent target st with
        | (inl e, st') => (inl e, st')
        | (inr i, st') =>
            (inr i,
             {| branching_cache := <[cache_key := i]> (branching_cache st');
                decay_fraction_cache := decay_fraction_cache st' |})
        end
    end.

Definition _get_branching_ratio (self : calculator F)
    (parent target : string) : M F F :=
  do i <- _get_branching_info self parent target;
  ret (info_branching_ratio i).

(** The result [calculate] stores when [_get_branching_info] raised a
    [ValueError]. *)
Definition failure_result (self : calculator F) (msg : string) : result F :=
  {| activity_Bq := f0;
     mass_g := Fin f0;
     branching_ratio := f0;
     halflife_yr := Fin f0;
     res_atomic_mass := None;
     error := Some msg;
     res_uncertainty := None;
     res_paths := if include_paths self then Some [] else None;
     total_branching_ratio := if include_paths self then Some f0 else None |}.

(** The uncertainty entries of [calculate]; [mass_coefficient] is [None]
    exactly for an infinite half-life. *)
Definition uncertainty_entries (measured_uncertainty ratio parent_activity : F)
    (mass_coefficient : option F) : exn + uncertainty F :=
  try activity_uncertainty <- pdiv measured_uncertainty ratio;
  let mass_uncertainty :=
    match mass_coefficient with
    | None => PosInf
    | Some c => Fin (fmul activity_uncertainty c)
    end in
  try relative <-
    (if feqb parent_activity f0 then inr None
     else try r <- pdiv activity_uncertainty (fabs parent_activity);
          inr (Some r));
  inr {| activity_uncertainty_Bq := activity_uncertainty;
         mass_uncertainty_g := mass_uncertainty;
         relative_uncertainty := relative |}.

(** The body of the loop of [calculate] once [_get_branching_info]
    returned [branching_info]. *)
Definition success_result (self : calculator F) (parent : string)
    (branching_info : info F) : exn + result F :=
  let ratio := info_branching_ratio branching_info in
  try parent_activity <- pdiv (measured_activity self) ratio;
  match rd_Nuclide parent with
  | None => inl (NuclideError parent)
  | Some parent_nuclide =>
      let parent_halflife_s := half_life_s parent_nuclide in
      let parent_halflife_yr := ext_div_const parent_halflife_s f_year in
      let parent_mass_amu := atomic_mass parent_nuclide in
      try mass <-
        (match parent_halflife_s with
         | PosInf => inr (PosInf, None)
         | Fin hl =>
             try lambda_parent <- pdiv f_ln2 hl;
             try mass_coefficient <-
               pdiv parent_mass_amu (fmul f_avogadro lambda_parent);
             inr (Fin (fmul parent_activity mass_coefficient),
                  Some mass_coefficient)
         end);
      let '(parent_mass, mass_coefficient) := mass in
      try unc <-
        (match measured_activity_uncertainty self with
         | None => inr None
         | Some u =>
             try e <- uncertainty_entries u ratio parent_activity
                        mass_coefficient;
             inr (Some e)
         end);
      inr {| activity_Bq := parent_activity;
             mass_g := parent_mass;
             branching_ratio := ratio;
             halflife_yr := parent_halflife_yr;
             res_atomic_mass := Some parent_mass_amu;
             error := None;
             res_uncertainty := unc;
             res_paths :=
               if include_paths self then Some (info_paths branching_info)
               else None;
             total_branching_ratio :=
               if include_paths self then Some ratio else None |}
  end.

(** The loop of [calculate] over [parent_nuclides], [results] being the
    dictionary built so far. *)
Fixpoint calculate_loop (self : calculator F) (parents : list string)
    (results : gmap string (result F)) : M F (gmap string (result F)) :=
  match parents with
  | [] => ret results
  | parent :: rest =>
      do r <- try_ValueError
                (_get_branching_info self parent (measured_nuclide self));
      match r with
      | inl msg =>
          calculate_loop self rest
            (<[parent := failure_result self msg]> results)
      | inr branching_info =>
          do res <- lift (success_result self parent branching_info);
          calculate_loop self rest (<[parent := res]> results)
      end
  end.

Definition calculate (self : calculator F)
  : M F (gmap string (result F)) :=
  calculate_loop self (parent_nuclides self) ∅.

(** *** Construction *)

(** [s.strip() == ''], for the ASCII white space of [str.strip]. *)
Definition is_space (c : Ascii.ascii) : bool :=
  let n := Ascii.nat_of_ascii c in
  ((9 <=? n)%nat && (n <=? 13)%nat) || ((28 <=? n)%nat && (n <=? 32)%nat).

Fixpoint is_blank (s : string) : bool :=
  match s with
  | EmptyString => true
  | String c rest => is_space c && is_blank rest
  end.

Fixpoint join (sep : string) (l : list string) : string :=
  match l with
  | [] => ""
  | [x] => x
  | x :: rest => x +:+ sep +:+ join sep rest
  end.

Definition VALID_DECAY_TYPES : list string :=
  ["α"; "β-"; "β+"; "EC"; "SF"; "IT"; "p"; "n"; "d"; "t"].

Fixpoint validate_parents (parents : list string) : exn + unit :=
  match parents with
  | [] => inr tt
  | parent :: rest =>
      if _is_nuclide_name parent then validate_parents rest
      else inl (ValueError ("Invalid parent nuclide name: " +:+ parent))
  end.

Definition _validate_nuclides (self : calculator F) : exn + unit :=
  if negb (_is_nuclide_name (measured_nuclide self)) then
    inl (ValueError
           ("Invalid measured nuclide name: " +:+ measured_nuclide self))
  else
    try _u <- validate_parents (parent_nuclides self);
    try _u <-
      (match decay_type self with
       | None => inr tt
       | Some dt =>
           if is_blank dt then
             inl (ValueError ("Invalid decay type: " +:+ dt +:+
                              ". Must be a non-empty string."))
           else if negb (bool_decide (dt ∈ VALID_DECAY_TYPES)) then
             inl (ValueError ("Invalid decay type: " +:+ dt +:+
                              ". Valid types: " +:+
                              join ", " VALID_DECAY_TYPES))
           else inr tt
       end);
    match measured_activity_uncertainty self with
    | None => inr tt
    | Some u =>
        if fltb u f0 then
          inl (ValueError "measured_activity_uncertainty must be >= 0")
        else inr tt
    end.

(** [__init__], given the attributes as it stores them ([decay_type]
    already passed through [_normalize_decay_type]): both caches start
    empty and a failed validation leaves no instance. *)
Definition new_calculator (self : calculator F)
  : exn + (calculator F * caches F) :=
  try _u <- _validate_nuclides self;
  inr (self, empty_caches).

(** [calculate_secular_equilibrium] with [verbose=False]. *)
Definition calculate_secular_equilibrium (self : calculator F)
  : exn + gmap string (result F) :=
  try c <- new_calculator self;
  fst (calculate (fst c) (snd c)).

(** *** The computation with both caches removed

    The same code with every cache lookup and cache store deleted, so
    that no state is left: the reference the memoised functions are
    compared with. *)

Definition _get_decay_fraction_for_nuclide_nocache (self : calculator F)
    (name : string) : exn + F :=
  match decay_type self with
  | None => inr f1
  | Some dt =>
      match rd_Nuclide name with
      | None => inl (NuclideError name)
      | Some target_nuclide => inr (matching_fraction dt target_nuclide)
      end
  end.

Definition _get_branching_info_nocache (self : calculator F)
    (parent target : string) : exn + info F :=
  match rd_Nuclide target with
  | None => inl (ValueError (msg_invalid_progeny target))
  | Some progeny_nuclide =>
      match half_life_s progeny_nuclide with
      | PosInf => inl (ValueError (msg_stable target))
      | Fin _ =>
          let chain_paths := _enumerate_chain_paths parent target in
          match chain_paths with
          | [] => inl (ValueError (msg_not_in_chain target parent))
          | _ :: _ =>
              try decay_type_fraction <-
                (match decay_type self with
                 | Some _ =>
                     if negb (String.eqb parent target)
                     then _get_decay_fraction_for_nuclide_nocache self target
                     else inr f1
                 | None => inr f1
                 end);
              let '(path_details, total_branching_ratio) :=
                accumulate_paths decay_type_fraction chain_paths in
              if fltb total_branching_ratio f_eps then
                inl (ValueError (msg_not_in_chain target parent))
              else
                inr {| info_branching_ratio := total_branching_ratio;
                       info_paths := sort_desc path_details;
                       info_decay_type_fraction := decay_type_fraction |}
          end
      end
  end.

(** One iteration of the loop of [calculate]: the result stored for
    [parent], or the exception that leaves the loop. *)
Definition ancestor_result (self : calculator F) (parent : string)
  : exn + result F :=
  match _get_branching_info_nocache self parent (measured_nuclide self) with
  | inl (ValueError msg) => inr (failure_result self msg)
  | inl e => inl e
  | inr branching_info => success_result self parent branching_info
  end.

Fixpoint calculate_loop_nocache (self : calculator F)
    (parents : list string) (results : gmap string (result F))
  : exn + gmap string (result F) :=
  match parents with
  | [] => inr results
  | parent :: rest =>
      try res <- ancestor_result self parent;
      calculate_loop_nocache self rest (<[parent := res]> results)
  end.

Definition calculate_nocache (self : calculator F)
  : exn + gmap string (result F) :=
  calculate_loop_nocache self (parent_nuclides self) ∅.

(** Every cache entry a query of [self] can hit holds what the
    computation without caches returns for its key. *)
Definition cache_ok (self : calculator F) (st : caches F) : Prop :=
  (forall parent target i,
      branching_cache st !! (parent, target, decay_type self) = Some i ->
      _get_branching_info_nocache self parent target = inr i) /\
  (forall name dt v,
      decay_type self = Some dt ->
      decay_fraction_cache st !! (name, dt) = Some v ->
      _get_decay_fraction_for_nuclide_nocache self name = inr v).

(** *** Sums and products as the code accumulates them *)

(** [acc = 0.0; for x in l: acc += x]. *)
Definition fsum (l : list F) : F := fold_left fadd l f0.

(** [acc = 1.0; for x in l: acc = acc * x]. *)
Definition fprod (l : list F) : F := fold_left fmul l f1.

(** *** What [_get_branching_info] computes, named

    The decay-type fraction it applies for a target [nuc], the entry it
    builds for one path, and the total it accumulates. *)

Definition applied_fraction (self : calculator F) (parent target : string)
    (nuc : nuclide F) : F :=
  match decay_type self with
  | Some dt =>
      if negb (String.eqb parent target) then matching_fraction dt nuc
      else f1
  | None => f1
  end.

Definition detail_of (decay_type_fraction : F) (p : path F)
  : path_detail F :=
  {| pd_path := p;
     decay_type_fraction_at_measured := decay_type_fraction;
     path_branching_ratio :=
       fmul (chain_branching_ratio p) decay_type_fraction |}.

Definition total_of (decay_type_fraction : F) (chain_paths : list (path F))
  : F :=
  fsum (map (fun p => fmul (chain_branching_ratio p) decay_type_fraction)
          chain_paths).

(** *** Invariants of the enumerator *)

(** What [dfs] maintains along one branch, and hands to every path it
    records: [visited] is the set of [nodes], no node repeats, the modes
    and fractions run parallel to the steps, and the cumulative ratio is
    the product of the fractions. *)
Record branch_inv (parent : string) (visited : gset string)
    (ns ms : list string) (fs : list F) (ratio : F) : Prop := {
  inv_visited : forall x, x ∈ visited <-> x ∈ ns;
  inv_nodup : NoDup ns;
  inv_head : head ns = Some parent;
  inv_modes : S (length ms) = length ns;
  inv_fractions : length fs = length ms;
  inv_ratio : ratio = fprod fs
}.

Record path_ok (parent : string) (p : path F) : Prop := {
  ok_nodup : NoDup (nodes p);
  ok_head : head (nodes p) = Some parent;
  ok_modes : S (length (path_decay_modes p)) = length (nodes p);
  ok_fractions :
    length (step_branching_fractions p) = length (path_decay_modes p);
  ok_ratio : chain_branching_ratio p = fprod (step_branching_fractions p)
}.

End Calculator.

(** ** Two arithmetics *)

(** Binary64, the arithmetic of the code; the literals that are no
    binary64 value are written as the double Python reads them as. *)
#[export] Instance float_arith : Arith float := {|
  f0 := 0%float;
  f1 := 1%float;
  fadd := PrimFloat.add;
  fmul := PrimFloat.mul;
  fdiv := PrimFloat.div;
  fltb := PrimFloat.ltb;
  feqb := PrimFloat.eqb;
  fabs := PrimFloat.abs;
  f_eps := 0x1.203af9ee75616p-50%float;        (* 1e-15 *)
  f_ln2 := 0x1.62e42fefa39efp-1%float;
  f_avogadro := 0x1.fe185ca57c517p+78%float;   (* 6.02214076e23 *)
  f_year := 31557600%float
|}.

(** Exact arithmetic on the rationals; [math.log(2)] is the rational the
    double it returns denotes. *)
#[export] Instance Q_arith : Arith Q := {|
  f0 := 0%Q;
  f1 := 1%Q;
  fadd := Qplus;
  fmul := Qmult;
  fdiv := Qdiv;
  fltb := fun x y => if Qlt_le_dec x y then true else false;
  feqb := Qeq_bool;
  fabs := Qabs;
  f_eps := (1 # 1000000000000000)%Q;
  f_ln2 := (6243314768165359 # 9007199254740992)%Q;
  f_avogadro := (602214076000000000000000 # 1)%Q;
  f_year := (31557600 # 1)%Q
|}.

(** ** A small decay network

    Five nuclides: [A] branches to [B] and [C], which both decay to [D];
    [D] decays to the stable [E] or back to [A].  ["various"] is a child
    token that is no nuclide.  The same table is read in both arithmetics
    through [num], which maps the decimals it uses. *)

Definition mk_nuclide {F : Type} (hl : ext F) (mass : F)
    (table : list (string * F * string)) : nuclide F :=
  {| half_life_s := hl;
     atomic_mass := mass;
     decay_modes := map (fun row => fst (fst row)) table;
     branching_fractions := map (fun row => snd (fst row)) table;
     progeny := map snd table |}.

(** The numbers the demo network is written with. *)
Inductive demo_number : Type :=
| n_zero | n_quarter | n_half | n_three_quarters | n_one
| n_60 | n_1000 | n_2000 | n_1e17 | n_206 | n_230 | n_234 | n_238.

Definition demo_network {F : Type} (num : demo_number -> F) (name : string)
  : option (nuclide F) :=
  if String.eqb name "A" then
    Some (mk_nuclide (Fin (num n_1e17)) (num n_238)
            [("α", num n_three_quarters, "B");
             ("β-", num n_quarter, "C");
             ("SF", num n_zero, "various")])
  else if String.eqb name "B" then
    Some (mk_nuclide (Fin (num n_1000)) (num n_234) [("β-", num n_one, "D")])
  else if String.eqb name "C" then
    Some (mk_nuclide (Fin (num n_2000)) (num n_234) [("α", num n_one, "D")])
  else if String.eqb name "D" then
    Some (mk_nuclide (Fin (num n_60)) (num n_230)
            [("β-", num n_half, "E");
             ("α", num n_quarter, "A");
             ("β-α", num n_quarter, "E")])
  else if String.eqb name "E" then
    Some (mk_nuclide PosInf (num n_206) [])
  else None.

Definition float_number (n : demo_number) : float :=
  match n with
  | n_zero => 0 | n_quarter => 0.25 | n_half => 0.5
  | n_three_quarters => 0.75 | n_one => 1
  | n_60 => 60 | n_1000 => 1000 | n_2000 => 2000 | n_1e17 => 1e17
  | n_206 => 206 | n_230 => 230 | n_234 => 234 | n_238 => 238
  end%float.

Definition Q_number (n : demo_number) : Q :=
  match n with
  | n_zero => 0 | n_quarter => 1 # 4 | n_half => 1 # 2
  | n_three_quarters => 3 # 4 | n_one => 1
  | n_60 => 60 | n_1000 => 1000 | n_2000 => 2000
  | n_1e17 => 100000000000000000 # 1
  | n_206 => 206 | n_230 => 230 | n_234 => 234 | n_238 => 238
  end%Q.

Definition demo_db : string -> option (nuclide float) :=
  demo_network float_number.

Definition demo_dbQ : string -> option (nuclide Q) :=
  demo_network Q_number.

(** A calculator over the demo network: 100 Bq of [measured], no
    uncertainty unless given. *)
Definition demo_calculator {F : Type}
    (hundred : F) (measured : string) (parents : list string)
    (dt : option string) (u : option F) (paths : bool) : calculator F :=
  {| measured_nuclide := measured;
     measured_activity := hundred;
     parent_nuclides := parents;
     decay_type := dt;
     measured_activity_uncertainty := u;
     include_paths := paths |}.

(** [D] measured through its β- decays, with an uncertainty of 5 Bq, from
    four candidate ancestors, one of them stable and one [D] itself. *)
Definition demo_self_D : calculator float :=
  demo_calculator 100%float "D" ["A"; "B"; "E"; "D"] (Some "β-")
    (Some 5%float) true.

(** The stable [E] measured. *)
Definition demo_self_E : calculator float :=
  demo_calculator 100%float "E" ["A"; "E"] None None false.

(** [B] measured, 100 Bq with an uncertainty of 5 Bq, ancestor [A]: the
    branching ratio is 0.75. *)
Definition demo_self_B : calculator float :=
  demo_calculator 100%float "B" ["A"] None (Some 5%float) false.

Definition demo_self_BQ : calculator Q :=
  demo_calculator 100%Q "B" ["A"] None (Some 5%Q) false.

(** ** Walks of the decay network

    What [dfs] follows: a row of a known nuclide's decay table whose child
    is a nuclide name, and a sequence of such rows from one nuclide to
    another. *)

Section Walks.
Context {F : Type} `{!Arith F}.
Variable rd_Nuclide : string -> option (nuclide F).

(** [(mode, fraction, child)] is a row that the loop of [dfs] at [a]
    does not skip for its child token. *)
Definition decay_row (a mode : string) (fraction : F) (child : string)
  : Prop :=
  exists nuc,
    rd_Nuclide a = Some nuc /\
    In (mode, fraction, child)
       (zip3 (decay_modes nuc) (branching_fractions nuc) (progeny nuc)) /\
    _is_nuclide_name rd_Nuclide child = true.

(** [steps] lead from [a] to [target], row by row. *)
Fixpoint follows (a : string) (steps : list (string * F * string))
    (target : string) : Prop :=
  match steps with
  | [] => a = target
  | (mode, fraction, child) :: rest =>
      decay_row a mode fraction child /\ follows child rest target
  end.

Definition step_mode (step : string * F * string) : string := fst (fst step).
Definition step_fraction (step : string * F * string) : F := snd (fst step).
Definition step_child (step : string * F * string) : string := snd step.

(** The path entry of the walk [steps] from [parent]. *)
Definition path_of_steps (parent : string)
    (steps : list (string * F * string)) : path F :=
  {| nodes := parent :: map step_child steps;
     path_decay_modes := map step_mode steps;
     step_branching_fractions := map step_fraction steps;
     chain_branching_ratio := fprod (map step_fraction steps) |}.

End Walks.

(** ** Python's string methods

    A [str] is modelled by its UTF-8 bytes.  White space is matched code
    point by code point: a code point's bytes never start inside another
    one's, so matching byte sequences at a character boundary is matching
    code points. *)

Definition utf8 (codes : list nat) : list Ascii.ascii :=
  map Ascii.ascii_of_nat codes.

(** The code points [str.strip()] and [str.split()] take for white space:
    U+0009..U+000D, U+001C..U+0020, U+0085, U+00A0, U+1680,
    U+2000..U+200A, U+2028, U+2029, U+202F, U+205F and U+3000. *)
Definition whitespace : list (list Ascii.ascii) :=
  map utf8
    [ [9]; [10]; [11]; [12]; [13]; [28]; [29]; [30]; [31]; [32];
      [194; 133]; [194; 160]; [225; 154; 128];
      [226; 128; 128]; [226; 128; 129]; [226; 128; 130]; [226; 128; 131];
      [226; 128; 132]; [226; 128; 133]; [226; 128; 134]; [226; 128; 135];
      [226; 128; 136]; [226; 128; 137]; [226; 128; 138];
      [226; 128; 168]; [226; 128; 169]; [226; 128; 175];
      [226; 129; 159]; [227; 128; 128] ].

(** The rest of [l] after the first of [tokens] it starts with. *)
Fixpoint head_token (tokens : list (list Ascii.ascii)) (l : list Ascii.ascii)
  : option (list Ascii.ascii) :=
  match tokens with
  | [] => None
  | k :: rest =>
      if bool_decide (k `prefix_of` l) then Some (drop (length k) l)
      else head_token rest l
  end.

(** Drop leading tokens while there is one; [fuel] bounds the number of
    tokens dropped and the length of [l] is always enough. *)
Fixpoint lstrip_fuel (tokens : list (list Ascii.ascii)) (fuel : nat)
    (l : list Ascii.ascii) : list Ascii.ascii :=
  match fuel with
  | O => l
  | S fuel' =>
      match head_token tokens l with
      | Some rest => lstrip_fuel tokens fuel' rest
      | None => l
      end
  end.

Definition lstrip_with (tokens : list (list Ascii.ascii))
    (l : list Ascii.ascii) : list Ascii.ascii :=
  lstrip_fuel tokens (length l) l.

(** Trailing white space is leading white space of the reversed bytes. *)
Definition rstrip_bytes (l : list Ascii.ascii) : list Ascii.ascii :=
  reverse (lstrip_with (reverse <$> whitespace) (reverse l)).

Definition strip_bytes (l : list Ascii.ascii) : list Ascii.ascii :=
  rstrip_bytes (lstrip_with whitespace l).

(** Nothing to strip at the left, at the right. *)
Definition clean_left (l : list Ascii.ascii) : Prop :=
  head_token whitespace l = None.

Definition clean_right (l : list Ascii.ascii) : Prop :=
  head_token (reverse <$> whitespace) (reverse l) = None.

(** [s.strip()]. *)
Definition str_strip (s : string) : string :=
  String.string_of_list_ascii (strip_bytes (String.list_ascii_of_string s)).

(** [s.lower()] on the letters A..Z.  Code points outside ASCII are left as
    they are: the result is only looked up in a table of ASCII keys, and
    no code point outside ASCII lowercases to a letter of those keys. *)
Definition lower_byte (c : Ascii.ascii) : Ascii.ascii :=
  let n := Ascii.nat_of_ascii c in
  if ((65 <=? n)%nat && (n <=? 90)%nat)%bool then Ascii.ascii_of_nat (n + 32)
  else c.

Fixpoint str_lower (s : string) : string :=
  match s with
  | EmptyString => EmptyString
  | String c rest => String (lower_byte c) (str_lower rest)
  end.

(** [s.split(sep)] for a one-character [sep]. *)
Fixpoint split_bytes (sep : Ascii.ascii) (l : list Ascii.ascii)
  : list (list Ascii.ascii) :=
  match l with
  | [] => [[]]
  | c :: rest =>
      if Ascii.eqb c sep then [] :: split_bytes sep rest
      else match split_bytes sep rest with
           | w :: ws => (c :: w) :: ws
           | [] => [[c]]
           end
  end.

Definition str_split (sep : Ascii.ascii) (s : string) : list string :=
  map String.string_of_list_ascii (split_bytes sep (String.list_ascii_of_string s)).

Definition flush (word : list Ascii.ascii) : list (list Ascii.ascii) :=
  match word with
  | [] => []
  | _ :: _ => [word]
  end.

(** The words of [l] between runs of white space, [word] being the one
    under way; the length of [l] is always enough [fuel]. *)
Fixpoint words_fuel (fuel : nat) (l word : list Ascii.ascii)
  : list (list Ascii.ascii) :=
  match fuel with
  | O => flush word
  | S fuel' =>
      match head_token whitespace l with
      | Some rest => flush word ++ words_fuel fuel' rest []
      | None =>
          match l with
          | [] => flush word
          | c :: rest => words_fuel fuel' rest (word ++ [c])
          end
      end
  end.

(** [s.split()]. *)
Definition str_split_ws (s : string) : list string :=
  let l := String.list_ascii_of_string s in
  map String.string_of_list_ascii (words_fuel (length l) l []).

(** ** Decay-type shorthand and construction from the raw arguments *)

(** [decay_type_map] of [_normalize_decay_type]. *)
Definition decay_type_map : list (string * string) :=
  [ ("a", "α"); ("alpha", "α");
    ("b", "β-"); ("b-", "β-"); ("beta", "β-"); ("beta-", "β-");
    ("b+", "β+"); ("beta+", "β+");
    ("e", "EC"); ("ec", "EC") ].

(** [d.get(key, default)]. *)
Fixpoint dict_get (key : string) (d : list (string * string))
    (default : string) : string :=
  match d with
  | [] => default
  | (k, v) :: rest => if String.eqb k key then v else dict_get key rest default
  end.

Definition _normalize_decay_type (decay_type : option string)
  : option string :=
  match decay_type with
  | None => None
  | Some raw =>
      let stripped := str_strip raw in
      if bool_decide (stripped ∈ VALID_DECAY_TYPES) then Some stripped
      else Some (dict_get (str_lower stripped) decay_type_map stripped)
  end.

(** A raw decay type that [_normalize_decay_type] turns into one of
    [VALID_DECAY_TYPES]: a valid symbol, or a shorthand in any case, with
    white space around it. *)
Definition recognised_decay_type (raw : string) : Prop :=
  str_strip raw ∈ VALID_DECAY_TYPES \/
  str_lower (str_strip raw) ∈ map fst decay_type_map.

(** [SecularEquilibriumCalculator(...)]: [__init__] from its arguments, the
    decay type as the caller wrote it. *)
Definition SecularEquilibriumCalculator {F : Type} `{!Arith F}
    (rd_Nuclide : string -> option (nuclide F))
    (measured : string) (activity : F) (parents : list string)
    (raw_decay_type : option string) (activity_uncertainty : option F)
    (paths : bool) : exn + (calculator F * caches F) :=
  new_calculator rd_Nuclide
    {| measured_nuclide := measured;
       measured_activity := activity;
       parent_nuclides := parents;
       decay_type := _normalize_decay_type raw_decay_type;
       measured_activity_uncertainty := activity_uncertainty;
       include_paths := paths |}.

(** ** The parent list of the command line ([cli.py]) *)

Definition _parse_parent_nuclides (raw_value : option string) : list string :=
  let text := str_strip (default "" raw_value) in
  if String.eqb text "" then []
  else
    let parts :=
      if str_contains ";" text then str_split (Ascii.ascii_of_nat 59) text
      else if str_contains "," text then str_split (Ascii.ascii_of_nat 44) text
      else str_split_ws text in
    map str_strip
      (List.filter (fun item => negb (String.eqb (str_strip item) "")) parts).

(** ** Properties of the path enumerator *)

Section EnumeratorProperties.
Context {F : Type} `{!Arith F}.
Variable rd_Nuclide : string -> option (nuclide F).

Lemma fprod_snoc (l : list F) (x : F) : fprod (l ++ [x]) = fmul (fprod l) x.
Proof. unfold fprod. by rewrite fold_left_app. Qed.

Lemma fsum_snoc (l : list F) (x : F) : fsum (l ++ [x]) = fadd (fsum l) x.
Proof. unfold fsum. by rewrite fold_left_app. Qed.

Lemma branch_inv_init (parent : string) :
  branch_inv parent {[parent]} [parent] [] [] f1.
Proof.
  split; try done.
  - intros x. by rewrite elem_of_singleton, list_elem_of_singleton.
  - apply NoDup_singleton.
Qed.

Lemma branch_inv_step parent visited ns ms fs ratio mode fraction child :
  branch_inv parent visited ns ms fs ratio ->
  child ∉ visited ->
  branch_inv parent (visited ∪ {[child]}) (ns ++ [child]) (ms ++ [mode])
    (fs ++ [fraction]) (fmul ratio fraction).
Proof.
  intros [Hv Hn Hh Hm Hf Hr] Hc. split.
  - intros x.
    by rewrite elem_of_union, elem_of_app, Hv, elem_of_singleton,
      list_elem_of_singleton.
  - apply NoDup_app. split; [done|]. split; [|apply NoDup_singleton].
    intros x Hx ->%list_elem_of_singleton. by apply Hc, Hv.
  - destruct ns; [done|]. done.
  - rewrite !length_app. simpl. lia.
  - rewrite !length_app. simpl. lia.
  - by rewrite fprod_snoc, Hr.
Qed.

Lemma dfs_path_ok parent target budget :
  forall current visited ns ms fs ratio p,
    branch_inv parent visited ns ms fs ratio ->
    In p (dfs rd_Nuclide target budget current visited ns ms fs ratio) ->
    path_ok parent p.
Proof.
  induction budget as [|budget IH]; intros current visited ns ms fs ratio p
    Hinv Hin; simpl in Hin; [done|].
  destruct (String.eqb current target).
  - destruct Hin as [<-|[]]. destruct Hinv. by split.
  - destruct (rd_Nuclide current) as [nuc|]; [|done].
    apply in_flat_map in Hin as [[[mode fraction] child] [_ Hin]].
    destruct (negb (_is_nuclide_name rd_Nuclide child)); [done|].
    case_bool_decide as Hc; [done|].
    eapply IH; [|exact Hin]. by apply branch_inv_step.
Qed.

Lemma enumerate_path_ok parent target p :
  In p (_enumerate_chain_paths rd_Nuclide parent target) ->
  path_ok parent p.
Proof.
  unfold _enumerate_chain_paths. destruct (String.eqb parent target).
  - intros [<-|[]]. split; simpl; try done. apply NoDup_singleton.
  - apply dfs_path_ok, branch_inv_init.
Qed.

End EnumeratorProperties.

(** ** The memoised functions against the computation without caches *)

Section CacheProperties.
Context {F : Type} `{!Arith F}.
Variable rd_Nuclide : string -> option (nuclide F).

Lemma cache_ok_empty (self : calculator F) :
  cache_ok rd_Nuclide self empty_caches.
Proof. split; intros *; simpl; by rewrite ?lookup_empty. Qed.

Lemma decay_fraction_refines self name st :
  cache_ok rd_Nuclide self st ->
  exists st',
    _get_decay_fraction_for_nuclide rd_Nuclide self name st =
      (_get_decay_fraction_for_nuclide_nocache rd_Nuclide self name, st') /\
    cache_ok rd_Nuclide self st'.
Proof.
  intros Hok.
  unfold _get_decay_fraction_for_nuclide,
    _get_decay_fraction_for_nuclide_nocache.
  destruct (decay_type self) as [dt|] eqn:Hdt; [|by exists st].
  destruct (decay_fraction_cache st !! (name, dt)) as [cached|] eqn:Hc.
  - exists st. split; [|done].
    destruct Hok as [_ Hf]. specialize (Hf name dt cached Hdt Hc).
    unfold _get_decay_fraction_for_nuclide_nocache in Hf.
    rewrite Hdt in Hf. by rewrite Hf.
  - destruct (rd_Nuclide name) as [nuc|] eqn:Hn; [|by exists st].
    eexists. split; [done|]. destruct Hok as [Hb Hf]. split; [done|].
    simpl. intros name' dt' v Hdt' Hv.
    assert (dt' = dt) as -> by congruence.
    destruct (decide (name' = name)) as [->|Hne].
    + rewrite lookup_insert_eq in Hv. injection Hv as <-.
      unfold _get_decay_fraction_for_nuclide_nocache. by rewrite Hdt, Hn.
    + rewrite lookup_insert_ne in Hv by congruence. by eapply Hf.
Qed.

Lemma compute_refines self parent target st :
  cache_ok rd_Nuclide self st ->
  exists st',
    compute_branching_info rd_Nuclide self parent target st =
      (_get_branching_info_nocache rd_Nuclide self parent target, st') /\
    cache_ok rd_Nuclide self st'.
Proof.
  intros Hok.
  unfold compute_branching_info, _get_branching_info_nocache.
  destruct (rd_Nuclide target) as [nuc|]; [|by exists st].
  destruct (half_life_s nuc); [|by exists st].
  destruct (_enumerate_chain_paths rd_Nuclide parent target) as [|p0 ps];
    [by exists st|].
  set (frac := match decay_type self with
               | Some _ => if negb (parent =? target)%string
                           then _get_decay_fraction_for_nuclide rd_Nuclide
                                  self target
                           else ret f1
               | None => ret f1
               end).
  set (frac' := match decay_type self with
                | Some _ => if negb (parent =? target)%string
                            then _get_decay_fraction_for_nuclide_nocache
                                   rd_Nuclide self target
                            else inr f1
                | None => inr f1
                end).
  assert (exists st', frac st = (frac', st') /\ cache_ok rd_Nuclide self st')
    as (st' & Hfrac & Hok').
  { unfold frac, frac'. destruct (decay_type self); [|by exists st].
    destruct (negb _); [|by exists st].
    by apply decay_fraction_refines. }
  exists st'. split; [|done].
  unfold bind. rewrite Hfrac. destruct frac' as [e|dtf]; [done|]. simpl.
  destruct (accumulate_paths dtf (p0 :: ps)) as [details total].
  by destruct (fltb total f_eps).
Qed.

Lemma get_branching_info_refines self parent target st :
  cache_ok rd_Nuclide self st ->
  exists st',
    _get_branching_info rd_Nuclide self parent target st =
      (_get_branching_info_nocache rd_Nuclide self parent target, st') /\
    cache_ok rd_Nuclide self st'.
Proof.
  intros Hok. unfold _get_branching_info.
  destruct (branching_cache st !! (parent, target, decay_type self))
    as [cached|] eqn:Hc.
  - exists st. split; [|done]. destruct Hok as [Hb _].
    by rewrite (Hb _ _ _ Hc).
  - destruct (compute_refines self parent target st Hok)
      as (st' & -> & [Hb Hf]).
    destruct (_get_branching_info_nocache rd_Nuclide self parent target)
      as [e|i] eqn:Hi; [by exists st'|].
    eexists. split; [done|]. split; [|done].
    simpl. intros parent' target' i' Hl.
    destruct (decide ((parent', target') = (parent, target))) as [Heq|Hne].
    + injection Heq as -> ->. rewrite lookup_insert_eq in Hl. congruence.
    + rewrite lookup_insert_ne in Hl by congruence. by apply Hb.
Qed.

Lemma calculate_loop_refines self parents :
  forall results st,
    cache_ok rd_Nuclide self st ->
    exists st',
      calculate_loop rd_Nuclide self parents results st =
        (calculate_loop_nocache rd_Nuclide self parents results, st') /\
      cache_ok rd_Nuclide self st'.
Proof.
  induction parents as [|parent rest IH]; intros results st Hok;
    [by exists st|].
  simpl. unfold bind at 1. unfold try_ValueError.
  destruct (get_branching_info_refines self parent (measured_nuclide self)
              st Hok) as (st1 & -> & Hok1).
  unfold ancestor_result.
  destruct (_get_branching_info_nocache rd_Nuclide self parent
              (measured_nuclide self)) as [[msg| |name]|i]; simpl;
    try by exists st1.
  - by apply IH.
  - unfold bind, lift.
    destruct (success_result rd_Nuclide self parent i) as [e|res]; simpl;
      [by exists st1|].
    by apply IH.
Qed.

Lemma calculate_refines self st :
  cache_ok rd_Nuclide self st ->
  exists st',
    calculate rd_Nuclide self st = (calculate_nocache rd_Nuclide self, st') /\
    cache_ok rd_Nuclide self st'.
Proof. apply calculate_loop_refines. Qed.

End CacheProperties.

(** ** Properties of the branching aggregator *)

Section AggregatorProperties.
Context {F : Type} `{!Arith F}.
Variable rd_Nuclide : string -> option (nuclide F).

Lemma accumulate_paths_from dtf (chain_paths : list (path F)) :
  forall details total,
    fold_left
      (fun '(path_details, total) p =>
         let path_ratio := fmul (chain_branching_ratio p) dtf in
         (path_details ++
            [ {| pd_path := p;
                 decay_type_fraction_at_measured := dtf;
                 path_branching_ratio := path_ratio |} ],
          fadd total path_ratio))
      chain_paths (details, total) =
    (details ++ map (detail_of dtf) chain_paths,
     fold_left fadd
       (map (fun p => fmul (chain_branching_ratio p) dtf) chain_paths)
       total).
Proof.
  induction chain_paths as [|p ps IH]; intros details total; simpl.
  - by rewrite app_nil_r.
  - rewrite IH. by rewrite <- app_assoc.
Qed.

Lemma accumulate_paths_spec dtf (chain_paths : list (path F)) :
  accumulate_paths dtf chain_paths =
    (map (detail_of dtf) chain_paths, total_of dtf chain_paths).
Proof. apply accumulate_paths_from. Qed.

(** The computation without caches, for a target the database knows and
    whose half-life is finite. *)
Lemma nocache_unstable self parent target nuc hl :
  rd_Nuclide target = Some nuc ->
  half_life_s nuc = Fin hl ->
  _get_branching_info_nocache rd_Nuclide self parent target =
    let chain_paths := _enumerate_chain_paths rd_Nuclide parent target in
    let dtf := applied_fraction self parent target nuc in
    match chain_paths with
    | [] => inl (ValueError (msg_not_in_chain target parent))
    | _ :: _ =>
        if fltb (total_of dtf chain_paths) f_eps
        then inl (ValueError (msg_not_in_chain target parent))
        else inr {| info_branching_ratio := total_of dtf chain_paths;
                    info_paths :=
                      sort_desc (map (detail_of dtf) chain_paths);
                    info_decay_type_fraction := dtf |}
    end.
Proof.
  intros Hn Hhl. unfold _get_branching_info_nocache. rewrite Hn, Hhl.
  cbv zeta.
  destruct (_enumerate_chain_paths rd_Nuclide parent target) as [|p ps];
    [done|].
  assert (match decay_type self with
          | Some _ =>
              if negb (parent =? target)%string
              then _get_decay_fraction_for_nuclide_nocache rd_Nuclide self
                     target
              else inr f1
          | None => inr f1
          end = inr (applied_fraction self parent target nuc)) as ->.
  { unfold applied_fraction, _get_decay_fraction_for_nuclide_nocache.
    destruct (decay_type self); [|done].
    destruct (negb _); [|done]. by rewrite Hn. }
  simpl ebind. by rewrite accumulate_paths_spec.
Qed.

(** A successful answer determines how it was computed. *)
Lemma nocache_success self parent target i :
  _get_branching_info_nocache rd_Nuclide self parent target = inr i ->
  exists nuc hl,
    rd_Nuclide target = Some nuc /\
    half_life_s nuc = Fin hl /\
    _enumerate_chain_paths rd_Nuclide parent target <> [] /\
    let chain_paths := _enumerate_chain_paths rd_Nuclide parent target in
    let dtf := applied_fraction self parent target nuc in
    fltb (total_of dtf chain_paths) f_eps = false /\
    i = {| info_branching_ratio := total_of dtf chain_paths;
           info_paths := sort_desc (map (detail_of dtf) chain_paths);
           info_decay_type_fraction := dtf |}.
Proof.
  intros Hi.
  destruct (rd_Nuclide target) as [nuc|] eqn:Hn;
    [|by unfold _get_branching_info_nocache in Hi; rewrite Hn in Hi].
  destruct (half_life_s nuc) as [hl|] eqn:Hhl;
    [|by unfold _get_branching_info_nocache in Hi; rewrite Hn, Hhl in Hi].
  rewrite (nocache_unstable _ _ _ _ _ Hn Hhl) in Hi. cbv zeta in Hi.
  exists nuc, hl. split; [done|]. split; [done|].
  destruct (_enumerate_chain_paths rd_Nuclide parent target) as [|p ps];
    [done|].
  split; [done|]. cbv zeta.
  destruct (fltb _ f_eps); [done|]. split; [done|]. congruence.
Qed.

End AggregatorProperties.

(** ** The statements about the enumerator and the aggregator *)

Section AggregatorStatements.
Context {F : Type} `{!Arith F}.
Variable rd_Nuclide : string -> option (nuclide F).

Lemma insert_desc_perm (d : path_detail F) l : insert_desc d l ≡ₚ d :: l.
Proof.
  induction l as [|d' l IH]; simpl; [done|].
  destruct (fltb _ _); [|done]. rewrite IH. apply Permutation_swap.
Qed.

Lemma sort_desc_perm (l : list (path_detail F)) : sort_desc l ≡ₚ l.
Proof.
  induction l as [|d l IH]; simpl; [done|].
  unfold sort_desc in *. simpl. by rewrite insert_desc_perm, IH.
Qed.

Lemma matching_fraction_from dt (rows : list (string * F)) :
  forall acc,
    fold_left
      (fun acc '(mode, fraction) =>
         if str_contains dt mode then fadd acc fraction else acc)
      rows acc =
    fold_left fadd
      (map snd (List.filter (fun row => str_contains dt (fst row)) rows))
      acc.
Proof.
  induction rows as [|[mode fraction] rows IH]; intros acc; simpl; [done|].
  destruct (str_contains dt mode); simpl; apply IH.
Qed.

(** The loop of [_get_decay_fraction_for_nuclide] adds up, in table
    order, the fractions of the rows whose mode contains [dt]. *)
Lemma matching_fraction_filter dt (nuc : nuclide F) :
  matching_fraction dt nuc =
    fsum (map snd
            (List.filter (fun row => str_contains dt (fst row))
               (zip (decay_modes nuc) (branching_fractions nuc)))).
Proof. apply matching_fraction_from. Qed.

Lemma total_of_products dtf (chain_paths : list (path F)) :
  Forall (fun p => chain_branching_ratio p =
                   fprod (step_branching_fractions p)) chain_paths ->
  total_of dtf chain_paths =
    fsum (map (fun p => fmul (fprod (step_branching_fractions p)) dtf)
            chain_paths).
Proof.
  intros Hall. unfold total_of. f_equal.
  induction Hall as [|p ps Hp _ IH]; simpl; [done|]. by rewrite Hp, IH.
Qed.

Lemma details_of_products dtf (chain_paths : list (path F)) :
  Forall (fun p => chain_branching_ratio p =
                   fprod (step_branching_fractions p)) chain_paths ->
  map (detail_of dtf) chain_paths =
    map (fun p =>
           {| pd_path := p;
              decay_type_fraction_at_measured := dtf;
              path_branching_ratio :=
                fmul (fprod (step_branching_fractions p)) dtf |})
      chain_paths.
Proof.
  intros Hall. induction Hall as [|p ps Hp _ IH]; simpl; [done|].
  rewrite <- IH. unfold detail_of at 1. by rewrite Hp.
Qed.

Lemma enumerate_ratios parent target :
  Forall (fun p => chain_branching_ratio p =
                   fprod (step_branching_fractions p))
    (_enumerate_chain_paths rd_Nuclide parent target).
Proof.
  apply List.Forall_forall. intros p Hp.
  by destruct (enumerate_path_ok rd_Nuclide parent target p Hp).
Qed.

(** C9: in every path the enumerator returns, no nuclide identifier
    occurs twice. *)
Theorem enumerated_paths_repeat_no_nuclide (parent target : string) :
  Forall (fun p => NoDup (nodes p))
    (_enumerate_chain_paths rd_Nuclide parent target).
Proof.
  apply List.Forall_forall. intros p Hp.
  by destruct (enumerate_path_ok rd_Nuclide parent target p Hp).
Qed.

(** C1: when the aggregator returns for [(parent, target)], at least one
    path was enumerated, the chain ratio stored in each enumerated path is
    the product of its per-step fractions, and the returned total is the
    sum, over the enumerated paths in order, of that product times the
    decay-type fraction; the returned path entries are the enumerated
    paths, each with that contribution. *)
Theorem total_ratio_is_sum_of_path_products self parent target st i st' :
  cache_ok rd_Nuclide self st ->
  _get_branching_info rd_Nuclide self parent target st = (inr i, st') ->
  let chain_paths := _enumerate_chain_paths rd_Nuclide parent target in
  let dtf := info_decay_type_fraction i in
  chain_paths <> [] /\
  Forall (fun p => chain_branching_ratio p =
                   fprod (step_branching_fractions p)) chain_paths /\
  info_branching_ratio i =
    fsum (map (fun p => fmul (fprod (step_branching_fractions p)) dtf)
            chain_paths) /\
  info_paths i ≡ₚ
    map (fun p =>
           {| pd_path := p;
              decay_type_fraction_at_measured := dtf;
              path_branching_ratio :=
                fmul (fprod (step_branching_fractions p)) dtf |})
      chain_paths.
Proof.
  intros Hok Hcall.
  destruct (get_branching_info_refines rd_Nuclide self parent target st Hok)
    as (st1 & Hcall' & _).
  rewrite Hcall in Hcall'. injection Hcall' as Hi _. symmetry in Hi.
  apply nocache_success in Hi
    as (nuc & hl & _ & _ & Hne & _ & ->). simpl.
  pose proof (enumerate_ratios parent target) as Hall.
  split; [done|]. split; [done|]. split.
  - by apply total_of_products.
  - by rewrite sort_desc_perm, details_of_products.
Qed.

(** C5: in what the aggregator returns, the decay-type fraction is 1.0
    when no filter is set; when a filter [dt] is set and the ancestor
    differs from the measured nuclide, it is the sum of the measured
    nuclide's own branching fractions whose mode label contains [dt]
    (Python's [dt in mode]); and that one fraction is the one applied to
    every path entry. *)
Theorem decay_type_fraction_is_matching_sum self parent target st i st' :
  cache_ok rd_Nuclide self st ->
  _get_branching_info rd_Nuclide self parent target st = (inr i, st') ->
  (decay_type self = None -> info_decay_type_fraction i = f1) /\
  (forall dt,
      decay_type self = Some dt -> parent <> target ->
      exists nuc,
        rd_Nuclide target = Some nuc /\
        info_decay_type_fraction i =
          fsum (map snd
                  (List.filter (fun row => str_contains dt (fst row))
                     (zip (decay_modes nuc) (branching_fractions nuc))))) /\
  Forall (fun d =>
            decay_type_fraction_at_measured d = info_decay_type_fraction i /\
            path_branching_ratio d =
              fmul (chain_branching_ratio (pd_path d))
                (info_decay_type_fraction i))
    (info_paths i).
Proof.
  intros Hok Hcall.
  destruct (get_branching_info_refines rd_Nuclide self parent target st Hok)
    as (st1 & Hcall' & _).
  rewrite Hcall in Hcall'. injection Hcall' as Hi _. symmetry in Hi.
  apply nocache_success in Hi
    as (nuc & hl & Hn & _ & _ & _ & ->). simpl.
  split; [|split].
  - intros Hdt. unfold applied_fraction. by rewrite Hdt.
  - intros dt Hdt Hne. exists nuc. split; [done|].
    unfold applied_fraction. rewrite Hdt.
    apply String.eqb_neq in Hne. rewrite Hne. simpl.
    apply matching_fraction_filter.
  - rewrite sort_desc_perm. apply List.Forall_map.
    by apply List.Forall_forall.
Qed.

(** C8: for a target the database knows with a finite half-life, the
    aggregator raises the "not in chain" error exactly when the
    enumerator returns no path or the total is below 1e-15, and returns
    the total otherwise. *)
Theorem chain_error_iff_no_path_or_negligible self parent target st nuc hl :
  cache_ok rd_Nuclide self st ->
  rd_Nuclide target = Some nuc ->
  half_life_s nuc = Fin hl ->
  let chain_paths := _enumerate_chain_paths rd_Nuclide parent target in
  let total := total_of (applied_fraction self parent target nuc) chain_paths in
  let outcome :=
    fst (_get_branching_info rd_Nuclide self parent target st) in
  (outcome = inl (ValueError (msg_not_in_chain target parent)) <->
   chain_paths = [] \/ fltb total f_eps = true) /\
  (~ (chain_paths = [] \/ fltb total f_eps = true) ->
   exists i, outcome = inr i /\ info_branching_ratio i = total).
Proof.
  intros Hok Hn Hhl chain_paths total outcome.
  destruct (get_branching_info_refines rd_Nuclide self parent target st Hok)
    as (st1 & Hcall & _).
  assert (outcome =
          _get_branching_info_nocache rd_Nuclide self parent target) as ->
    by (unfold outcome; by rewrite Hcall).
  rewrite (nocache_unstable rd_Nuclide self parent target nuc hl Hn Hhl).
  cbv zeta. fold chain_paths. fold total.
  destruct chain_paths as [|p ps].
  - split; [by split; [left|]|]. intros []. by left.
  - destruct (fltb total f_eps) eqn:Hlt.
    + split; [by split; [right|]|]. intros []. by right.
    + split.
      * split; [done|]. by intros [|].
      * intros _. by eexists.
Qed.

End AggregatorStatements.

(** ** Properties of [calculate] *)

Section CalculateProperties.
Context {F : Type} `{!Arith F}.
Variable rd_Nuclide : string -> option (nuclide F).

(** The aggregator raises nothing but [ValueError]. *)
Lemma nocache_raises_ValueError self parent target e :
  _get_branching_info_nocache rd_Nuclide self parent target = inl e ->
  exists msg, e = ValueError msg.
Proof.
  destruct (rd_Nuclide target) as [nuc|] eqn:Hn.
  - destruct (half_life_s nuc) as [hl|] eqn:Hhl.
    + rewrite (nocache_unstable rd_Nuclide self parent target nuc hl Hn Hhl).
      cbv zeta.
      destruct (_enumerate_chain_paths rd_Nuclide parent target);
        [intros [= <-]; by eexists|].
      destruct (fltb _ f_eps); [intros [= <-]; by eexists|done].
    + unfold _get_branching_info_nocache. rewrite Hn, Hhl.
      intros [= <-]. by eexists.
  - unfold _get_branching_info_nocache. rewrite Hn.
    intros [= <-]. by eexists.
Qed.

(** A stable target makes the aggregator raise at once, whatever the
    ancestor, and leaves the caches as they are. *)
Lemma stable_target_raises self parent target nuc st :
  cache_ok rd_Nuclide self st ->
  rd_Nuclide target = Some nuc ->
  half_life_s nuc = PosInf ->
  _get_branching_info rd_Nuclide self parent target st =
    (inl (ValueError (msg_stable target)), st).
Proof.
  intros [Hb _] Hn Hhl. unfold _get_branching_info.
  destruct (branching_cache st !! (parent, target, decay_type self))
    as [cached|] eqn:Hc.
  - apply Hb in Hc. unfold _get_branching_info_nocache in Hc.
    by rewrite Hn, Hhl in Hc.
  - unfold compute_branching_info. by rewrite Hn, Hhl.
Qed.

(** What the loop leaves under each key: the result of the last
    iteration for it, or what was there before. *)
Lemma loop_nocache_lookup self parents :
  forall results final,
    calculate_loop_nocache rd_Nuclide self parents results = inr final ->
    forall a,
      ((a ∈ parents) /\
       exists res, ancestor_result rd_Nuclide self a = inr res /\
                   final !! a = Some res) \/
      ((a ∉ parents) /\ final !! a = results !! a).
Proof.
  induction parents as [|parent rest IH]; intros results final Hloop a.
  - injection Hloop as <-. right. split; [|done]. apply not_elem_of_nil.
  - simpl in Hloop.
    destruct (ancestor_result rd_Nuclide self parent) as [e|res] eqn:Hres;
      [done|]. simpl in Hloop.
    destruct (IH _ _ Hloop a) as [[Hin Hex]|[Hnin Hl]].
    + left. split; [by apply elem_of_cons; right|done].
    + destruct (decide (a = parent)) as [->|Hne].
      * left. split; [by apply elem_of_cons; left|].
        exists res. split; [done|]. by rewrite Hl, lookup_insert_eq.
      * right. split.
        -- rewrite elem_of_cons. by intros [|].
        -- by rewrite Hl, lookup_insert_ne.
Qed.

(** The loop is left early only by an exception of some iteration. *)
Lemma loop_nocache_abort self parents :
  forall results e,
    calculate_loop_nocache rd_Nuclide self parents results = inl e ->
    exists a, (a ∈ parents) /\ ancestor_result rd_Nuclide self a = inl e.
Proof.
  induction parents as [|parent rest IH]; intros results e Hloop; [done|].
  simpl in Hloop.
  destruct (ancestor_result rd_Nuclide self parent) as [e'|res] eqn:Hres.
  - injection Hloop as ->. exists parent. split; [|done].
    by apply elem_of_cons; left.
  - simpl in Hloop. destruct (IH _ _ Hloop) as (a & Hin & Ha).
    exists a. split; [by apply elem_of_cons; right|done].
Qed.

(** Reading a successful result back. *)
Lemma success_result_inv self parent i res :
  success_result rd_Nuclide self parent i = inr res ->
  let ratio := info_branching_ratio i in
  let activity := fdiv (measured_activity self) ratio in
  exists nuc,
    rd_Nuclide parent = Some nuc /\
    feqb ratio f0 = false /\
    activity_Bq res = activity /\
    branching_ratio res = ratio /\
    error res = None /\
    res_atomic_mass res = Some (atomic_mass nuc) /\
    halflife_yr res = ext_div_const (half_life_s nuc) f_year /\
    mass_g res =
      match half_life_s nuc with
      | PosInf => PosInf
      | Fin hl =>
          Fin (fmul activity
                 (fdiv (atomic_mass nuc)
                    (fmul f_avogadro (fdiv f_ln2 hl))))
      end /\
    match measured_activity_uncertainty self with
    | None => res_uncertainty res = None
    | Some u =>
        exists unc,
          res_uncertainty res = Some unc /\
          activity_uncertainty_Bq unc = fdiv u ratio /\
          mass_uncertainty_g unc =
            match half_life_s nuc with
            | PosInf => PosInf
            | Fin hl =>
                Fin (fmul (fdiv u ratio)
                       (fdiv (atomic_mass nuc)
                          (fmul f_avogadro (fdiv f_ln2 hl))))
            end /\
          relative_uncertainty unc =
            if feqb activity f0 then None
            else Some (fdiv (fdiv u ratio) (fabs activity))
    end.
Proof.
  unfold success_result, uncertainty_entries, pdiv. intros Hres. cbv zeta.
  destruct (feqb (info_branching_ratio i) f0) eqn:Hr; [done|].
  simpl in Hres.
  destruct (rd_Nuclide parent) as [nuc|]; [|done]. exists nuc.
  destruct (half_life_s nuc) as [hl|].
  - destruct (feqb hl f0); [done|]. simpl in Hres.
    destruct (feqb (fmul f_avogadro (fdiv f_ln2 hl)) f0); [done|].
    simpl in Hres.
    destruct (measured_activity_uncertainty self) as [u|].
    + simpl in Hres.
      destruct (feqb (fdiv (measured_activity self) _) f0) eqn:Ha;
        simpl in Hres.
      * injection Hres as <-. simpl. repeat split; try done.
        eexists. by repeat split.
      * destruct (feqb (fabs _) f0); [done|]. simpl in Hres.
        injection Hres as <-. simpl. repeat split; try done.
        eexists. by repeat split.
    + simpl in Hres. injection Hres as <-. simpl. by repeat split.
  - simpl in Hres.
    destruct (measured_activity_uncertainty self) as [u|].
    + simpl in Hres.
      destruct (feqb (fdiv (measured_activity self) _) f0) eqn:Ha;
        simpl in Hres.
      * injection Hres as <-. simpl. repeat split; try done.
        eexists. by repeat split.
      * destruct (feqb (fabs _) f0); [done|]. simpl in Hres.
        injection Hres as <-. simpl. repeat split; try done.
        eexists. by repeat split.
    + simpl in Hres. injection Hres as <-. simpl. by repeat split.
Qed.

(** A stored result without [error] comes from the success branch. *)
Lemma ancestor_result_success self parent res :
  ancestor_result rd_Nuclide self parent = inr res ->
  error res = None ->
  exists i,
    _get_branching_info_nocache rd_Nuclide self parent
      (measured_nuclide self) = inr i /\
    success_result rd_Nuclide self parent i = inr res.
Proof.
  unfold ancestor_result.
  destruct (_get_branching_info_nocache _ _ _ _) as [[msg| |name]|i];
    try done.
  - by intros [= <-].
  - intros Hres _. by exists i.
Qed.

(** *** After construction *)

Lemma validate_parents_known parents :
  validate_parents rd_Nuclide parents = inr tt ->
  forall parent, parent ∈ parents -> is_Some (rd_Nuclide parent).
Proof.
  induction parents as [|p rest IH]; simpl; intros Hv parent Hin.
  - by apply not_elem_of_nil in Hin.
  - unfold _is_nuclide_name in Hv.
    destruct (rd_Nuclide p) as [nuc|] eqn:Hp; [|done].
    apply elem_of_cons in Hin as [->|Hin]; [by rewrite Hp|by apply IH].
Qed.

(** [__init__] returns an instance only if the database knows the
    measured nuclide and every ancestor; its caches are empty. *)
Lemma new_calculator_inv self c st :
  new_calculator rd_Nuclide self = inr (c, st) ->
  c = self /\ st = empty_caches /\
  is_Some (rd_Nuclide (measured_nuclide self)) /\
  forall parent, parent ∈ parent_nuclides self -> is_Some (rd_Nuclide parent).
Proof.
  unfold new_calculator, _validate_nuclides, _is_nuclide_name.
  destruct (rd_Nuclide (measured_nuclide self)) as [nuc|] eqn:Hm; [|done].
  simpl.
  destruct (validate_parents rd_Nuclide (parent_nuclides self)) as [e|[]]
    eqn:Hv; [done|]. simpl.
  intros Hnew.
  assert (c = self /\ st = empty_caches) as [-> ->].
  { destruct (match decay_type self with | Some _ => _ | None => _ end);
      [done|]. simpl in Hnew.
    destruct (match measured_activity_uncertainty self with
              | Some _ => _ | None => _ end); [done|].
    simpl in Hnew. by injection Hnew as <- <-. }
  repeat split; [done|]. by apply validate_parents_known.
Qed.

(** The conversion of a known ancestor raises nothing but
    [ZeroDivisionError]. *)
Lemma success_result_raises self parent i e :
  is_Some (rd_Nuclide parent) ->
  success_result rd_Nuclide self parent i = inl e ->
  e = ZeroDivisionError.
Proof.
  intros [nuc Hn]. unfold success_result, uncertainty_entries, pdiv.
  rewrite Hn. intros He.
  repeat (match type of He with
          | context [match ?x with _ => _ end] => destruct x
          end; simpl in He; try discriminate; try by injection He as <-).
Qed.

(** A constructed instance leaves [calculate] by no exception other than a
    division by zero. *)
Lemma constructed_calculate_raises self c st e :
  new_calculator rd_Nuclide self = inr (c, st) ->
  fst (calculate rd_Nuclide c st) = inl e ->
  e = ZeroDivisionError.
Proof.
  intros Hnew He.
  apply new_calculator_inv in Hnew as (-> & -> & _ & Hparents).
  destruct (calculate_refines rd_Nuclide self empty_caches
              (cache_ok_empty _ _)) as (st' & Hc & _).
  rewrite Hc in He. simpl in He.
  apply loop_nocache_abort in He as (a & Hin & Ha).
  unfold ancestor_result in Ha.
  destruct (_get_branching_info_nocache rd_Nuclide self a
              (measured_nuclide self)) as [e'|i] eqn:Hi.
  - apply nocache_raises_ValueError in Hi as [msg ->]. done.
  - eapply success_result_raises; [by apply Hparents|done].
Qed.

End CalculateProperties.

(** ** The statements about [calculate] and about memoisation *)

Section CalculateStatements.
Context {F : Type} `{!Arith F}.
Variable rd_Nuclide : string -> option (nuclide F).

Lemma loop_stable_target self nuc st :
  cache_ok rd_Nuclide self st ->
  rd_Nuclide (measured_nuclide self) = Some nuc ->
  half_life_s nuc = PosInf ->
  forall parents results,
    exists final,
      calculate_loop rd_Nuclide self parents results st = (inr final, st) /\
      forall a,
        final !! a =
          if bool_decide (a ∈ parents)
          then Some (failure_result self (msg_stable (measured_nuclide self)))
          else results !! a.
Proof.
  intros Hok Hn Hhl.
  induction parents as [|parent rest IH]; intros results.
  - exists results. split; [done|]. intros a.
    rewrite bool_decide_eq_false_2; [done|]. apply not_elem_of_nil.
  - simpl. unfold bind at 1. unfold try_ValueError.
    rewrite (stable_target_raises rd_Nuclide self parent _ nuc st Hok Hn Hhl).
    destruct (IH (<[parent :=
                      failure_result self
                        (msg_stable (measured_nuclide self))]> results))
      as (final & -> & Hfinal).
    exists final. split; [done|]. intros a. rewrite Hfinal.
    destruct (decide (a ∈ rest)) as [Hin|Hnin].
    + rewrite !bool_decide_eq_true_2; [done| |done].
      by apply elem_of_cons; right.
    + rewrite (bool_decide_eq_false_2 _ Hnin).
      destruct (decide (a = parent)) as [->|Hne].
      * rewrite lookup_insert_eq, bool_decide_eq_true_2; [done|].
        by apply elem_of_cons; left.
      * rewrite lookup_insert_ne by done.
        rewrite bool_decide_eq_false_2; [done|].
        rewrite elem_of_cons. by intros [|].
Qed.

(** C2 (amended): when the measured nuclide is stable, the aggregator
    raises the "stable nuclide" error for every ancestor before it
    enumerates any path, and [calculate] catches it each time: it
    returns, with the failure record carrying that message under every
    ancestor, and nothing else. *)
Theorem stable_measured_fails_every_ancestor self nuc st :
  cache_ok rd_Nuclide self st ->
  rd_Nuclide (measured_nuclide self) = Some nuc ->
  half_life_s nuc = PosInf ->
  (forall parent,
      _get_branching_info rd_Nuclide self parent (measured_nuclide self) st =
        (inl (ValueError (msg_stable (measured_nuclide self))), st)) /\
  exists results,
    calculate rd_Nuclide self st = (inr results, st) /\
    forall a,
      results !! a =
        if bool_decide (a ∈ parent_nuclides self)
        then Some (failure_result self (msg_stable (measured_nuclide self)))
        else None.
Proof.
  intros Hok Hn Hhl. split.
  - intros parent. by eapply stable_target_raises.
  - destruct (loop_stable_target self nuc st Hok Hn Hhl
                (parent_nuclides self) ∅) as (final & Hcalc & Hfinal).
    exists final. split; [done|]. intros a. rewrite Hfinal.
    by rewrite lookup_empty.
Qed.

(** C4: a [ValueError] of the aggregator never leaves [calculate].
    [calculate] is left by an exception only when the conversion of an
    ancestor whose aggregation succeeded raises one; when it returns,
    every ancestor of the list has the record of its own iteration, and
    an ancestor for which the aggregator raises a [ValueError] has the
    failure record: zeroed numeric fields and the message. *)
Theorem ancestor_failure_is_recorded_not_raised self st :
  cache_ok rd_Nuclide self st ->
  (forall e,
      fst (calculate rd_Nuclide self st) = inl e ->
      (forall msg, e <> ValueError msg) /\
      exists a i,
        a ∈ parent_nuclides self /\
        _get_branching_info_nocache rd_Nuclide self a
          (measured_nuclide self) = inr i /\
        success_result rd_Nuclide self a i = inl e) /\
  (forall results,
      fst (calculate rd_Nuclide self st) = inr results ->
      forall a,
        a ∈ parent_nuclides self ->
        (exists res,
            ancestor_result rd_Nuclide self a = inr res /\
            results !! a = Some res) /\
        (forall st0 msg,
            cache_ok rd_Nuclide self st0 ->
            fst (_get_branching_info rd_Nuclide self a
                   (measured_nuclide self) st0) = inl (ValueError msg) ->
            exists res,
              results !! a = Some res /\
              res = failure_result self msg /\
              activity_Bq res = f0 /\ mass_g res = Fin f0 /\
              branching_ratio res = f0 /\ halflife_yr res = Fin f0 /\
              error res = Some msg)).
Proof.
  intros Hok.
  destruct (calculate_refines rd_Nuclide self st Hok) as (st' & -> & _).
  simpl. unfold calculate_nocache. split.
  - intros e Hloop.
    apply loop_nocache_abort in Hloop as (a & Hin & Ha).
    unfold ancestor_result in Ha.
    destruct (_get_branching_info_nocache rd_Nuclide self a
                (measured_nuclide self)) as [e'|i] eqn:Hi.
    + apply nocache_raises_ValueError in Hi as [msg ->]. done.
    + split; [|by exists a, i].
      intros msg ->. unfold success_result, uncertainty_entries, pdiv in Ha.
      repeat (match type of Ha with
              | context [match ?x with _ => _ end] => destruct x
              end; simpl in Ha; try discriminate).
  - intros results Hloop a Hin.
    destruct (loop_nocache_lookup rd_Nuclide self _ _ _ Hloop a)
      as [[_ (res & Hres & Hl)]|[Hnin _]]; [|done].
    split; [by exists res|].
    intros st0 msg Hok0 Hfail.
    destruct (get_branching_info_refines rd_Nuclide self a
                (measured_nuclide self) st0 Hok0) as (st1 & Hcall & _).
    rewrite Hcall in Hfail. simpl in Hfail.
    unfold ancestor_result in Hres. rewrite Hfail in Hres.
    injection Hres as <-. by exists (failure_result self msg).
Qed.

(** C6: in what [calculate] returns, a result without [error] has, for
    an ancestor of finite half-life [hl], the mass
    [activity * (atomic_mass / (avogadro * (ln2 / hl)))], and for an
    ancestor of infinite half-life the mass [inf]. *)
Theorem mass_from_activity_and_half_life self st results a res :
  cache_ok rd_Nuclide self st ->
  fst (calculate rd_Nuclide self st) = inr results ->
  results !! a = Some res ->
  error res = None ->
  exists nuc,
    rd_Nuclide a = Some nuc /\
    match half_life_s nuc with
    | Fin hl =>
        let lambda := fdiv f_ln2 hl in
        mass_g res =
          Fin (fmul (activity_Bq res)
                 (fdiv (atomic_mass nuc) (fmul f_avogadro lambda)))
    | PosInf => mass_g res = PosInf
    end.
Proof.
  intros Hok Hcalc Hl Herr.
  destruct (calculate_refines rd_Nuclide self st Hok) as (st' & Hc & _).
  rewrite Hc in Hcalc. simpl in Hcalc.
  destruct (loop_nocache_lookup rd_Nuclide self _ _ _ Hcalc a)
    as [[_ (res' & Hres & Hl')]|[_ Hl']];
    [|by rewrite Hl', lookup_empty in Hl].
  assert (res' = res) as -> by congruence.
  destruct (ancestor_result_success rd_Nuclide self a res Hres Herr)
    as (i & _ & Hs).
  apply success_result_inv in Hs
    as (nuc & Hn & _ & Hact & _ & _ & _ & _ & Hmass & _).
  exists nuc. split; [done|]. rewrite Hact.
  by destruct (half_life_s nuc).
Qed.

(** The activity and uncertainty entries of a result without [error],
    in any arithmetic. *)
Lemma uncertainty_entries_of_result self st results a res u :
  cache_ok rd_Nuclide self st ->
  fst (calculate rd_Nuclide self st) = inr results ->
  results !! a = Some res ->
  error res = None ->
  measured_activity_uncertainty self = Some u ->
  exists i unc,
    _get_branching_info_nocache rd_Nuclide self a (measured_nuclide self) =
      inr i /\
    branching_ratio res = info_branching_ratio i /\
    feqb (branching_ratio res) f0 = false /\
    activity_Bq res = fdiv (measured_activity self) (branching_ratio res) /\
    res_uncertainty res = Some unc /\
    activity_uncertainty_Bq unc = fdiv u (branching_ratio res) /\
    relative_uncertainty unc =
      if feqb (activity_Bq res) f0 then None
      else Some (fdiv (activity_uncertainty_Bq unc) (fabs (activity_Bq res))).
Proof.
  intros Hok Hcalc Hl Herr Hu.
  destruct (calculate_refines rd_Nuclide self st Hok) as (st' & Hc & _).
  rewrite Hc in Hcalc. simpl in Hcalc.
  destruct (loop_nocache_lookup rd_Nuclide self _ _ _ Hcalc a)
    as [[_ (res' & Hres & Hl')]|[_ Hl']];
    [|by rewrite Hl', lookup_empty in Hl].
  assert (res' = res) as -> by congruence.
  destruct (ancestor_result_success rd_Nuclide self a res Hres Herr)
    as (i & Hi & Hs).
  apply success_result_inv in Hs
    as (nuc & _ & Hr & Hact & Hratio & _ & _ & _ & _ & Hunc).
  rewrite Hu in Hunc. destruct Hunc as (unc & Hsome & Hau & _ & Hrel).
  exists i, unc. rewrite Hratio, Hact, Hau. by repeat split.
Qed.

(** C10: from caches that hold only what the computation without caches
    returns (the empty caches of a new instance do), each memoised
    function returns what the computation without caches returns, on a
    first call and on a repeated one, and so does [calculate]; the caches
    it leaves are again of that kind. *)
Theorem memoisation_is_transparent self st :
  cache_ok rd_Nuclide self st ->
  (forall name,
      exists st1 st2,
        _get_decay_fraction_for_nuclide rd_Nuclide self name st =
          (_get_decay_fraction_for_nuclide_nocache rd_Nuclide self name, st1)
        /\ _get_decay_fraction_for_nuclide rd_Nuclide self name st1 =
          (_get_decay_fraction_for_nuclide_nocache rd_Nuclide self name, st2)
        /\ cache_ok rd_Nuclide self st2) /\
  (forall parent target,
      exists st1 st2,
        _get_branching_info rd_Nuclide self parent target st =
          (_get_branching_info_nocache rd_Nuclide self parent target, st1)
        /\ _get_branching_info rd_Nuclide self parent target st1 =
          (_get_branching_info_nocache rd_Nuclide self parent target, st2)
        /\ cache_ok rd_Nuclide self st2) /\
  (exists st1 st2,
      calculate rd_Nuclide self st = (calculate_nocache rd_Nuclide self, st1)
      /\ calculate rd_Nuclide self st1 =
        (calculate_nocache rd_Nuclide self, st2)
      /\ cache_ok rd_Nuclide self st2).
Proof.
  intros Hok. split; [|split].
  - intros name.
    destruct (decay_fraction_refines rd_Nuclide self name st Hok)
      as (st1 & H1 & Hok1).
    destruct (decay_fraction_refines rd_Nuclide self name st1 Hok1)
      as (st2 & H2 & Hok2).
    by exists st1, st2.
  - intros parent target.
    destruct (get_branching_info_refines rd_Nuclide self parent target
                st Hok) as (st1 & H1 & Hok1).
    destruct (get_branching_info_refines rd_Nuclide self parent target
                st1 Hok1) as (st2 & H2 & Hok2).
    by exists st1, st2.
  - destruct (calculate_refines rd_Nuclide self st Hok)
      as (st1 & H1 & Hok1).
    destruct (calculate_refines rd_Nuclide self st1 Hok1)
      as (st2 & H2 & Hok2).
    by exists st1, st2.
Qed.

End CalculateStatements.

(** ** The self-path *)

(** C3 (amended): when the ancestor is the measured nuclide, the enumerator
    returns the one trivial path (one node, no step, ratio 1.0) whatever the
    database holds; and when that nuclide is known with a finite half-life,
    the aggregator returns the ratio 1.0 with the fraction 1.0, whatever the
    decay-type filter.  (For a stable nuclide the aggregator raises
    instead, see [stable_target_raises].)  The two facts of arithmetic used
    are [0.0 + 1.0 * 1.0 == 1.0] and [not (1.0 < 1e-15)]. *)
Theorem self_path_ratio_is_one {F : Type} `{!Arith F}
    (rd_Nuclide : string -> option (nuclide F)) (self : calculator F)
    (n : string) (nuc : nuclide F) (hl : F) (st : caches F) :
  fadd f0 (fmul f1 f1) = f1 ->
  fltb f1 f_eps = false ->
  cache_ok rd_Nuclide self st ->
  rd_Nuclide n = Some nuc ->
  half_life_s nuc = Fin hl ->
  let trivial :=
    {| nodes := [n]; path_decay_modes := [];
       step_branching_fractions := []; chain_branching_ratio := f1 |} in
  (forall db : string -> option (nuclide F),
      _enumerate_chain_paths db n n = [trivial]) /\
  exists i st',
    _get_branching_info rd_Nuclide self n n st = (inr i, st') /\
    info_branching_ratio i = f1 /\
    info_decay_type_fraction i = f1 /\
    info_paths i =
      [ {| pd_path := trivial;
           decay_type_fraction_at_measured := f1;
           path_branching_ratio := fmul f1 f1 |} ].
Proof.
  intros Hone Heps Hok Hn Hhl trivial.
  assert (forall db : string -> option (nuclide F),
             _enumerate_chain_paths db n n = [trivial]) as Henum.
  { intros db. unfold _enumerate_chain_paths. by rewrite String.eqb_refl. }
  split; [done|].
  destruct (get_branching_info_refines rd_Nuclide self n n st Hok)
    as (st' & Hcall & _).
  rewrite (nocache_unstable rd_Nuclide self n n nuc hl Hn Hhl) in Hcall.
  cbv zeta in Hcall. rewrite Henum in Hcall.
  assert (applied_fraction self n n nuc = f1) as Hfrac.
  { unfold applied_fraction. rewrite String.eqb_refl.
    by destruct (decay_type self). }
  rewrite Hfrac in Hcall.
  assert (total_of f1 [trivial] = f1) as Htotal by exact Hone.
  rewrite Htotal, Heps in Hcall.
  eexists _, st'. split; [exact Hcall|]. by repeat split.
Qed.

(** ** Uncertainty propagation *)

(** In exact arithmetic the common divisor cancels. *)
Lemma quotient_of_scaled (u m r : Q) :
  ~ (r == 0)%Q -> ~ (m / r == 0)%Q -> ((u / r) / (m / r) == u / m)%Q.
Proof.
  intros Hr Ha.
  assert (~ (m == 0)%Q) as Hm.
  { intros Hm. apply Ha. rewrite Hm. unfold Qdiv. ring. }
  field. by split.
Qed.


(** ** The statements on the demo network *)

(** [D] lies on both paths from [A] to [B]'s and [C]'s common child: one
    nuclide, several paths. *)
Example nuclide_shared_between_paths :
  map nodes (_enumerate_chain_paths demo_db "A" "D") =
    [["A"; "B"; "D"]; ["A"; "C"; "D"]].
Proof. vm_compute. reflexivity. Qed.

(** The cycle [D -> A] is never followed back into a path from [A]. *)
Example cycle_is_cut :
  map nodes (_enumerate_chain_paths demo_db "A" "E") =
    [["A"; "B"; "D"; "E"]; ["A"; "B"; "D"; "E"];
     ["A"; "C"; "D"; "E"]; ["A"; "C"; "D"; "E"]].
Proof. vm_compute. reflexivity. Qed.

(** The filter matches by containment: for ["α"], [D]'s rows ["α"] and
    ["β-α"] both count. *)
Example filter_matches_by_containment :
  fst (_get_decay_fraction_for_nuclide demo_db
         (demo_calculator 100%float "D" ["A"] (Some "α") None false)
         "D" empty_caches) = inr 0.5%float.
Proof. vm_compute. reflexivity. Qed.

Lemma total_ratio_witness :
  cache_ok demo_db demo_self_D empty_caches /\
  exists i st',
    _get_branching_info demo_db demo_self_D "A" "D" empty_caches =
      (inr i, st') /\
    info_branching_ratio i =
      fsum (map (fun p => fmul (fprod (step_branching_fractions p))
                            (info_decay_type_fraction i))
              (_enumerate_chain_paths demo_db "A" "D")).
Proof.
  split; [apply cache_ok_empty|].
  eexists _, _. split; [reflexivity|].
  refine (proj1 (proj2 (proj2
    (total_ratio_is_sum_of_path_products demo_db demo_self_D "A" "D"
       empty_caches _ _ (cache_ok_empty _ _) eq_refl)))).
Defined.

(** C2, as stated, fails: with the stable [E] measured and two ancestors,
    construction succeeds and [calculate] returns a failure record per
    ancestor; nothing is raised. *)
Lemma stable_measured_calculation_returns :
  (exists nuc,
      demo_db (measured_nuclide demo_self_E) = Some nuc /\
      half_life_s nuc = PosInf) /\
  parent_nuclides demo_self_E = ["A"; "E"] /\
  (forall e, calculate_secular_equilibrium demo_db demo_self_E <> inl e) /\
  exists results,
    calculate_secular_equilibrium demo_db demo_self_E = inr results /\
    results !! "A" =
      Some (failure_result demo_self_E
              "E is a stable nuclide and cannot establish secular equilibrium").
Proof.
  split; [by eexists|]. split; [done|]. split.
  - intros e He. vm_compute in He. discriminate.
  - eexists. split; [reflexivity|]. vm_compute. reflexivity.
Qed.

Lemma stable_measured_witness :
  cache_ok demo_db demo_self_E empty_caches /\
  demo_db (measured_nuclide demo_self_E) = Some (mk_nuclide PosInf 206%float [])
  /\
  exists results,
    calculate demo_db demo_self_E empty_caches = (inr results, empty_caches) /\
    forall a,
      results !! a =
        if bool_decide (a ∈ parent_nuclides demo_self_E)
        then Some (failure_result demo_self_E
                     (msg_stable (measured_nuclide demo_self_E)))
        else None.
Proof.
  split; [apply cache_ok_empty|]. split; [reflexivity|].
  exact (proj2
    (stable_measured_fails_every_ancestor demo_db demo_self_E
       (mk_nuclide PosInf 206%float []) empty_caches
       (cache_ok_empty _ _) eq_refl eq_refl)).
Defined.

(** C3, as stated, fails: for the stable [E] as its own ancestor the
    aggregator raises, and the record [calculate] stores has the branching
    ratio 0.0. *)
Lemma stable_self_path_has_no_ratio :
  fst (_get_branching_info demo_db demo_self_E "E" "E" empty_caches) =
    inl (ValueError
           "E is a stable nuclide and cannot establish secular equilibrium") /\
  exists results res,
    calculate_secular_equilibrium demo_db demo_self_E = inr results /\
    results !! "E" = Some res /\
    feqb (branching_ratio res) f1 = false /\
    branching_ratio res = f0.
Proof.
  split; [vm_compute; reflexivity|].
  eexists _, _. split; [reflexivity|].
  split; [vm_compute; reflexivity|].
  split; vm_compute; reflexivity.
Qed.

Lemma self_path_witness :
  cache_ok demo_db demo_self_D empty_caches /\
  demo_db "D" =
    Some (mk_nuclide (Fin 60%float) 230%float
            [("β-", 0.5%float, "E"); ("α", 0.25%float, "A");
             ("β-α", 0.25%float, "E")]) /\
  decay_type demo_self_D = Some "β-" /\
  exists i st',
    _get_branching_info demo_db demo_self_D "D" "D" empty_caches =
      (inr i, st') /\
    info_branching_ratio i = 1%float.
Proof.
  split; [apply cache_ok_empty|]. split; [reflexivity|]. split; [reflexivity|].
  assert (fadd f0 (fmul f1 f1) = (f1 : float)) as Hone
    by (vm_compute; reflexivity).
  assert (fltb (f1 : float) f_eps = false) as Heps
    by (vm_compute; reflexivity).
  destruct (self_path_ratio_is_one demo_db demo_self_D "D" _ 60%float
              empty_caches Hone Heps (cache_ok_empty _ _)
              eq_refl eq_refl) as [_ (i & st' & Hcall & Hratio & _)].
  by exists i, st'.
Defined.

Lemma ancestor_failure_witness :
  cache_ok demo_db demo_self_D empty_caches /\
  exists results res,
    fst (calculate demo_db demo_self_D empty_caches) = inr results /\
    results !! "E" = Some res /\
    error res = Some "D is not in E's decay chain" /\
    activity_Bq res = 0%float /\
    (exists res', ancestor_result demo_db demo_self_D "A" = inr res' /\
                  results !! "A" = Some res').
Proof.
  split; [apply cache_ok_empty|].
  destruct (ancestor_failure_is_recorded_not_raised demo_db demo_self_D
              empty_caches (cache_ok_empty _ _)) as [_ H].
  destruct (fst (calculate demo_db demo_self_D empty_caches))
    as [e|results] eqn:Hcalc; [vm_compute in Hcalc; discriminate|].
  assert ("E" ∈ parent_nuclides demo_self_D) as HinE
    by (apply list_elem_of_In; simpl; tauto).
  assert ("A" ∈ parent_nuclides demo_self_D) as HinA
    by (apply list_elem_of_In; simpl; tauto).
  destruct (H results eq_refl "E" HinE) as [_ Hfail].
  destruct (Hfail empty_caches "D is not in E's decay chain"
              (cache_ok_empty _ _) ltac:(vm_compute; reflexivity))
    as (res & Hl & _ & Hact & _ & _ & _ & Herr).
  destruct (H results eq_refl "A" HinA) as [HA _].
  by exists results, res.
Defined.

Lemma decay_type_fraction_witness :
  cache_ok demo_db demo_self_D empty_caches /\
  decay_type demo_self_D = Some "β-" /\
  exists i st',
    _get_branching_info demo_db demo_self_D "A" "D" empty_caches =
      (inr i, st') /\
    exists nuc,
      demo_db "D" = Some nuc /\
      info_decay_type_fraction i =
        fsum (map snd
                (List.filter (fun row => str_contains "β-" (fst row))
                   (zip (decay_modes nuc) (branching_fractions nuc)))).
Proof.
  split; [apply cache_ok_empty|]. split; [reflexivity|].
  eexists _, _. split; [reflexivity|].
  refine (proj1 (proj2
    (decay_type_fraction_is_matching_sum demo_db demo_self_D "A" "D"
       empty_caches _ _ (cache_ok_empty _ _) eq_refl)) "β-" eq_refl _).
  discriminate.
Defined.

Lemma mass_witness :
  cache_ok demo_db demo_self_D empty_caches /\
  exists results res,
    fst (calculate demo_db demo_self_D empty_caches) = inr results /\
    results !! "A" = Some res /\
    error res = None /\
    exists nuc,
      demo_db "A" = Some nuc /\
      match half_life_s nuc with
      | Fin hl =>
          mass_g res =
            Fin (fmul (activity_Bq res)
                   (fdiv (atomic_mass nuc)
                      (fmul f_avogadro (fdiv f_ln2 hl))))
      | PosInf => mass_g res = PosInf
      end.
Proof.
  split; [apply cache_ok_empty|].
  eexists _, _. split; [reflexivity|].
  split; [vm_compute; reflexivity|]. split; [reflexivity|].
  eapply (mass_from_activity_and_half_life demo_db demo_self_D empty_caches);
    [apply cache_ok_empty | reflexivity | vm_compute; reflexivity
    | reflexivity].
Defined.



Lemma chain_error_witness :
  cache_ok demo_db demo_self_D empty_caches /\
  demo_db "D" =
    Some (mk_nuclide (Fin 60%float) 230%float
            [("β-", 0.5%float, "E"); ("α", 0.25%float, "A");
             ("β-α", 0.25%float, "E")]) /\
  _enumerate_chain_paths demo_db "E" "D" = [] /\
  fst (_get_branching_info demo_db demo_self_D "E" "D" empty_caches) =
    inl (ValueError (msg_not_in_chain "D" "E")).
Proof.
  split; [apply cache_ok_empty|]. split; [reflexivity|].
  split; [reflexivity|].
  apply (proj1 (chain_error_iff_no_path_or_negligible demo_db demo_self_D
                  "E" "D" empty_caches _ 60%float (cache_ok_empty _ _)
                  eq_refl eq_refl)).
  left. reflexivity.
Defined.

Lemma memoisation_witness :
  cache_ok demo_db demo_self_D empty_caches /\
  exists st1 st2,
    calculate demo_db demo_self_D empty_caches =
      (calculate_nocache demo_db demo_self_D, st1) /\
    calculate demo_db demo_self_D st1 =
      (calculate_nocache demo_db demo_self_D, st2) /\
    cache_ok demo_db demo_self_D st2.
Proof.
  split; [apply cache_ok_empty|].
  exact (proj2 (proj2
    (memoisation_is_transparent demo_db demo_self_D empty_caches
       (cache_ok_empty _ _)))).
Defined.

(** ** The enumerator returns exactly the simple walks within the depth
    bound *)

Section WalkProperties.
Context {F : Type} `{!Arith F}.
Variable rd_Nuclide : string -> option (nuclide F).

Lemma dfs_sound target budget :
  forall current visited ns ms fs ratio p,
    In p (dfs rd_Nuclide target budget current visited ns ms fs ratio) ->
    exists more,
      follows rd_Nuclide current more target /\
      length more < budget /\
      nodes p = ns ++ map step_child more /\
      path_decay_modes p = ms ++ map step_mode more /\
      step_branching_fractions p = fs ++ map step_fraction more /\
      chain_branching_ratio p = fold_left fmul (map step_fraction more) ratio.
Proof.
  induction budget as [|budget IH]; intros current visited ns ms fs ratio p
    Hin; simpl in Hin; [done|].
  destruct (String.eqb current target) eqn:Heq.
  - destruct Hin as [<-|[]]. exists []. simpl.
    rewrite !app_nil_r. apply String.eqb_eq in Heq.
    repeat split; [done|lia].
  - destruct (rd_Nuclide current) as [nuc|] eqn:Hn; [|done].
    apply in_flat_map in Hin as [[[mode fraction] child] [Hrow Hin]].
    destruct (_is_nuclide_name rd_Nuclide child) eqn:Hname; [|done].
    simpl in Hin. case_bool_decide as Hc; [done|].
    apply IH in Hin as (more & Hf & Hlen & Hns & Hms & Hfs & Hr).
    exists ((mode, fraction, child) :: more). simpl.
    rewrite Hns, Hms, Hfs, Hr, <- !app_assoc. simpl.
    repeat split; try done; [by exists nuc|lia].
Qed.

Lemma follows_target_in a (steps : list (string * F * string)) target :
  follows rd_Nuclide a steps target -> target ∈ a :: map step_child steps.
Proof.
  revert a. induction steps as [|[[mode fraction] child] steps IH];
    intros a Hf; simpl in *.
  - subst. apply elem_of_cons. by left.
  - destruct Hf as [_ Hf]. apply elem_of_cons. right. by apply IH.
Qed.

Lemma dfs_complete target :
  forall more budget current visited ns ms fs ratio,
    follows rd_Nuclide current more target ->
    length more < budget ->
    (forall x, x ∈ visited <-> x ∈ ns) ->
    current ∈ ns ->
    NoDup (ns ++ map step_child more) ->
    In {| nodes := ns ++ map step_child more;
          path_decay_modes := ms ++ map step_mode more;
          step_branching_fractions := fs ++ map step_fraction more;
          chain_branching_ratio :=
            fold_left fmul (map step_fraction more) ratio |}
       (dfs rd_Nuclide target budget current visited ns ms fs ratio).
Proof.
  induction more as [|[[mode fraction] child] more IH];
    intros budget current visited ns ms fs ratio Hf Hlen Hv Hcur Hnd;
    (destruct budget as [|budget]; [simpl in Hlen; lia|]); simpl.
  - simpl in Hf. subst current. rewrite String.eqb_refl, !app_nil_r.
    by left.
  - destruct Hf as [(nuc & Hn & Hrow & Hname) Hf].
    assert (child ∉ ns) as Hchild.
    { apply NoDup_app in Hnd as (_ & Hdisj & _). intros Hin.
      apply (Hdisj child Hin). simpl. apply elem_of_cons. by left. }
    assert (current <> target) as Hne.
    { intros ->. apply NoDup_app in Hnd as (_ & Hdisj & _).
      apply (Hdisj target Hcur). simpl.
      by apply (follows_target_in child more target). }
    apply String.eqb_neq in Hne. rewrite Hne, Hn.
    apply in_flat_map. exists (mode, fraction, child). split; [done|].
    rewrite Hname. simpl.
    rewrite bool_decide_eq_false_2 by (by rewrite Hv).
    specialize (IH budget child (visited ∪ {[child]}) (ns ++ [child])
                  (ms ++ [mode]) (fs ++ [fraction]) (fmul ratio fraction)).
    rewrite <- !app_assoc in IH. simpl in IH. apply IH.
    + done.
    + simpl in Hlen. lia.
    + intros x. rewrite elem_of_union, elem_of_app, Hv, elem_of_singleton,
        list_elem_of_singleton. done.
    + apply elem_of_app. right. by apply list_elem_of_singleton.
    + done.
Qed.

(** X1: the enumerator returns exactly the walks of the network from the
    ancestor to the measured nuclide that repeat no nuclide and have at
    most [MAX_DEPTH] = 30 steps: each returned entry lists the nodes, modes
    and fractions of such a walk, with the product of the fractions as
    its ratio, and every such walk is returned. *)
Theorem enumerator_returns_the_simple_walks parent target (p : path F) :
  In p (_enumerate_chain_paths rd_Nuclide parent target) <->
  exists steps,
    p = path_of_steps parent steps /\
    follows rd_Nuclide parent steps target /\
    NoDup (parent :: map step_child steps) /\
    length steps <= MAX_DEPTH.
Proof.
  split.
  - intros Hin.
    pose proof (enumerate_path_ok rd_Nuclide parent target p Hin) as Hok.
    unfold _enumerate_chain_paths in Hin.
    destruct (String.eqb parent target) eqn:Heq.
    + destruct Hin as [<-|[]]. exists []. apply String.eqb_eq in Heq.
      repeat split; try done; [apply NoDup_singleton|unfold MAX_DEPTH; simpl; lia].
    + apply dfs_sound in Hin as (more & Hf & Hlen & Hns & Hms & Hfs & Hr).
      exists more. destruct Hok as [Hnd _ _ _ _]. rewrite Hns in Hnd.
      repeat split; try done; [|lia].
      destruct p as [ns ms fs r]. simpl in *. by subst.
  - intros (steps & -> & Hf & Hnd & Hlen).
    unfold _enumerate_chain_paths.
    destruct (String.eqb parent target) eqn:Heq.
    + apply String.eqb_eq in Heq. subst target.
      destruct steps as [|[[mode fraction] child] steps]; [by left|].
      exfalso. destruct Hf as [_ Hf].
      apply follows_target_in in Hf. simpl in Hnd.
      apply NoDup_cons in Hnd as [Hnotin _]. by apply Hnotin.
    + apply (dfs_complete target steps (S MAX_DEPTH) parent {[parent]}
               [parent] [] [] f1); try done.
      * lia.
      * intros x. by rewrite elem_of_singleton, list_elem_of_singleton.
      * by apply list_elem_of_singleton.
Qed.

End WalkProperties.

(** ** What the caches hold after a query *)

Section CacheFrame.
Context {F : Type} `{!Arith F}.
Variable rd_Nuclide : string -> option (nuclide F).

Lemma decay_fraction_frame self name st :
  let out := _get_decay_fraction_for_nuclide rd_Nuclide self name st in
  branching_cache (snd out) = branching_cache st /\
  (decay_fraction_cache (snd out) = decay_fraction_cache st \/
   exists dt v,
     decay_type self = Some dt /\ fst out = inr v /\
     decay_fraction_cache st !! (name, dt) = None /\
     decay_fraction_cache (snd out) =
       <[(name, dt) := v]> (decay_fraction_cache st)).
Proof.
  unfold _get_decay_fraction_for_nuclide.
  destruct (decay_type self) as [dt|]; [|by split; [|left]].
  destruct (decay_fraction_cache st !! (name, dt)) as [cached|] eqn:Hc;
    [by split; [|left]|].
  destruct (rd_Nuclide name) as [nuc|]; [|by split; [|left]].
  simpl. split; [done|]. right. by eexists _, _.
Qed.

Lemma compute_frame self parent target st :
  let out := compute_branching_info rd_Nuclide self parent target st in
  branching_cache (snd out) = branching_cache st /\
  (decay_fraction_cache (snd out) = decay_fraction_cache st \/
   exists dt v,
     decay_type self = Some dt /\
     decay_fraction_cache st !! (target, dt) = None /\
     decay_fraction_cache (snd out) =
       <[(target, dt) := v]> (decay_fraction_cache st)).
Proof.
  unfold compute_branching_info.
  destruct (rd_Nuclide target) as [nuc|]; [|by split; [|left]].
  destruct (half_life_s nuc); [|by split; [|left]].
  destruct (_enumerate_chain_paths rd_Nuclide parent target) as [|p0 ps];
    [by split; [|left]|].
  unfold bind.
  destruct (decay_type self) as [dt|] eqn:Hdt; simpl.
  - destruct (negb (parent =? target)%string); simpl.
    + pose proof (decay_fraction_frame self target st) as Hframe.
      cbv zeta in Hframe.
      destruct (_get_decay_fraction_for_nuclide rd_Nuclide self target st)
        as [[e|dtf] st1]; simpl in *.
      * destruct Hframe as [Hb [Hd|(dt' & v & _ & [=] & _)]].
        by split; [|left].
      * assert (branching_cache st1 = branching_cache st /\
                (decay_fraction_cache st1 = decay_fraction_cache st \/
                 exists dt' v,
                   Some dt = Some dt' /\
                   decay_fraction_cache st !! (target, dt') = None /\
                   decay_fraction_cache st1 =
                     <[(target, dt') := v]> (decay_fraction_cache st)))
          as Hgoal.
        { destruct Hframe as [Hb [Hd|(dt' & v & Hdt' & _ & Hnone & Hins)]].
          - by split; [|left].
          - split; [done|]. right. rewrite Hdt in Hdt'. by exists dt', v. }
        destruct (accumulate_paths dtf (p0 :: ps)) as [details total].
        destruct (fltb total f_eps); exact Hgoal.
    + destruct (accumulate_paths f1 (p0 :: ps)) as [details total].
      destruct (fltb total f_eps); (split; [done|by left]).
  - destruct (accumulate_paths f1 (p0 :: ps)) as [details total].
    destruct (fltb total f_eps); (split; [done|by left]).
Qed.

(** X2: the aggregator never caches a failure.  When it raises, the
    branching cache is as before; when it returns, the branching cache is
    the one before with the answer stored under the exact key (ancestor,
    measured nuclide, decay type), and asking again returns the same
    answer and changes nothing.  Either way the only entry the
    decay-fraction cache can gain is the one of the measured nuclide. *)
Theorem aggregator_caches_exactly_its_answer self parent target st :
  let key := (parent, target, decay_type self) in
  let out := _get_branching_info rd_Nuclide self parent target st in
  match fst out with
  | inl _ => branching_cache (snd out) = branching_cache st
  | inr i =>
      branching_cache (snd out) = <[key := i]> (branching_cache st) /\
      _get_branching_info rd_Nuclide self parent target (snd out) =
        (inr i, snd out)
  end /\
  (decay_fraction_cache (snd out) = decay_fraction_cache st \/
   exists dt v,
     decay_type self = Some dt /\
     decay_fraction_cache st !! (target, dt) = None /\
     decay_fraction_cache (snd out) =
       <[(target, dt) := v]> (decay_fraction_cache st)).
Proof.
  cbv zeta.
  destruct (_get_branching_info rd_Nuclide self parent target st)
    as [r st'] eqn:Hcall. simpl.
  unfold _get_branching_info in Hcall.
  destruct (branching_cache st !! (parent, target, decay_type self))
    as [cached|] eqn:Hc.
  - injection Hcall as <- <-. split; [|by left].
    split; [by rewrite insert_id|].
    unfold _get_branching_info. by rewrite Hc.
  - pose proof (compute_frame self parent target st) as Hframe.
    cbv zeta in Hframe.
    destruct (compute_branching_info rd_Nuclide self parent target st)
      as [[e|i] st1]; simpl in *; destruct Hframe as [Hb Hd];
      injection Hcall as <- <-; simpl.
    + by split.
    + split; [|done]. rewrite Hb. split; [done|].
      unfold _get_branching_info. simpl. by rewrite lookup_insert_eq.
Qed.

End CacheFrame.

(** ** The dictionary [calculate] returns *)

Section ResultRecords.
Context {F : Type} `{!Arith F}.
Variable rd_Nuclide : string -> option (nuclide F).

(** Where a record of the final dictionary comes from, whatever the
    caches hold. *)
Lemma calculate_loop_records self parents :
  forall results st final st',
    calculate_loop rd_Nuclide self parents results st = (inr final, st') ->
    forall a,
      match final !! a with
      | Some r =>
          ((a ∈ parents) /\
           ((exists msg, r = failure_result self msg) \/
            exists i, success_result rd_Nuclide self a i = inr r)) \/
          ((a ∉ parents) /\ results !! a = Some r)
      | None => (a ∉ parents) /\ results !! a = None
      end.
Proof.
  induction parents as [|parent rest IH]; intros results st final st' Hloop a.
  - injection Hloop as <- <-.
    destruct (results !! a); [right|]; (split; [apply not_elem_of_nil|done]).
  - simpl in Hloop. unfold bind at 1 in Hloop. unfold try_ValueError in Hloop.
    destruct (_get_branching_info rd_Nuclide self parent
                (measured_nuclide self) st) as [[[msg| |name]|i] st1];
      try done.
    + specialize (IH _ _ _ _ Hloop a).
      destruct (final !! a) as [r|].
      * destruct IH as [[Hin Horigin]|[Hnin Hl]].
        -- left. split; [by apply elem_of_cons; right|done].
        -- destruct (decide (a = parent)) as [->|Hne].
           ++ rewrite lookup_insert_eq in Hl. injection Hl as <-.
              left. split; [by apply elem_of_cons; left|].
              left. by exists msg.
           ++ rewrite lookup_insert_ne in Hl by done. right.
              split; [|done]. rewrite elem_of_cons. by intros [|].
      * destruct IH as [Hnin Hl].
        destruct (decide (a = parent)) as [->|Hne];
          [by rewrite lookup_insert_eq in Hl|].
        rewrite lookup_insert_ne in Hl by done.
        split; [|done]. rewrite elem_of_cons. by intros [|].
    + unfold bind, lift in Hloop.
      destruct (success_result rd_Nuclide self parent i) as [e|r0] eqn:Hs;
        [done|].
      specialize (IH _ _ _ _ Hloop a).
      destruct (final !! a) as [r|].
      * destruct IH as [[Hin Horigin]|[Hnin Hl]].
        -- left. split; [by apply elem_of_cons; right|done].
        -- destruct (decide (a = parent)) as [->|Hne].
           ++ rewrite lookup_insert_eq in Hl. injection Hl as <-.
              left. split; [by apply elem_of_cons; left|].
              right. by exists i.
           ++ rewrite lookup_insert_ne in Hl by done. right.
              split; [|done]. rewrite elem_of_cons. by intros [|].
      * destruct IH as [Hnin Hl].
        destruct (decide (a = parent)) as [->|Hne];
          [by rewrite lookup_insert_eq in Hl|].
        rewrite lookup_insert_ne in Hl by done.
        split; [|done]. rewrite elem_of_cons. by intros [|].
Qed.

Lemma calculate_record_origin self st results a r :
  fst (calculate rd_Nuclide self st) = inr results ->
  results !! a = Some r ->
  (a ∈ parent_nuclides self) /\
  ((exists msg, r = failure_result self msg) \/
   exists i, success_result rd_Nuclide self a i = inr r).
Proof.
  intros Hcalc Hl. unfold calculate in Hcalc.
  destruct (calculate_loop rd_Nuclide self (parent_nuclides self) ∅ st)
    as [out st'] eqn:Hloop. simpl in Hcalc. subst out.
  pose proof (calculate_loop_records self _ _ _ _ _ Hloop a) as H.
  rewrite Hl in H. destruct H as [H|[_ H]]; [done|].
  by rewrite lookup_empty in H.
Qed.

(** X3: when [calculate] returns, the keys of the dictionary are exactly
    the ancestors of the list: every ancestor has a record, and there is
    no record under any other name. *)
Theorem results_keys_are_the_ancestors self st results :
  fst (calculate rd_Nuclide self st) = inr results ->
  forall a, is_Some (results !! a) <-> a ∈ parent_nuclides self.
Proof.
  intros Hcalc a. unfold calculate in Hcalc.
  destruct (calculate_loop rd_Nuclide self (parent_nuclides self) ∅ st)
    as [out st'] eqn:Hloop. simpl in Hcalc. subst out.
  pose proof (calculate_loop_records self _ _ _ _ _ Hloop a) as H.
  destruct (results !! a) as [r|].
  - split; [|by eexists]. intros _.
    destruct H as [[H _]|[_ H]]; [done|]. by rewrite lookup_empty in H.
  - destruct H as [H _]. split; [by intros [? ?]|done].
Qed.


End ResultRecords.

(** ** Activity, mass and their uncertainties *)

(** A successful record read back through the aggregator's answer. *)
Lemma successful_record {F : Type} `{!Arith F}
    (rd_Nuclide : string -> option (nuclide F)) self st results a res :
  cache_ok rd_Nuclide self st ->
  fst (calculate rd_Nuclide self st) = inr results ->
  results !! a = Some res ->
  error res = None ->
  exists i,
    _get_branching_info_nocache rd_Nuclide self a (measured_nuclide self) =
      inr i /\
    success_result rd_Nuclide self a i = inr res.
Proof.
  intros Hok Hcalc Hl Herr.
  destruct (calculate_refines rd_Nuclide self st Hok) as (st' & Hc & _).
  rewrite Hc in Hcalc. simpl in Hcalc.
  destruct (loop_nocache_lookup rd_Nuclide self _ _ _ Hcalc a)
    as [[_ (res' & Hres & Hl')]|[_ Hl']];
    [|by rewrite Hl', lookup_empty in Hl].
  assert (res' = res) as -> by congruence.
  by apply ancestor_result_success.
Qed.

Lemma scaled_by_common_factor (x y c : Q) :
  ~ (y * c == 0)%Q -> ((x * c) / (y * c) == x / y)%Q.
Proof.
  intros Hyc.
  assert (~ (y == 0)%Q) by (intros Hy; apply Hyc; rewrite Hy; ring).
  assert (~ (c == 0)%Q) by (intros Hy; apply Hyc; rewrite Hy; ring).
  field. by split.
Qed.

(** X5: in a record without [error] the branching ratio is never below
    1e-15 and never zero, and the activity is the measured activity divided
    by it; in exact arithmetic, therefore, activity times branching ratio
    gives back the measured activity. *)
Theorem activity_times_ratio_is_measured :
  (forall (F : Type) (A : Arith F)
          (rd_Nuclide : string -> option (nuclide F)) self st results a res,
      cache_ok rd_Nuclide self st ->
      fst (calculate rd_Nuclide self st) = inr results ->
      results !! a = Some res ->
      error res = None ->
      fltb (branching_ratio res) f_eps = false /\
      feqb (branching_ratio res) f0 = false /\
      activity_Bq res = fdiv (measured_activity self) (branching_ratio res))
  /\
  (forall (rd_Nuclide : string -> option (nuclide Q)) self st results a res,
      cache_ok rd_Nuclide self st ->
      fst (calculate rd_Nuclide self st) = inr results ->
      results !! a = Some res ->
      error res = None ->
      (activity_Bq res * branching_ratio res == measured_activity self)%Q).
Proof.
  assert (forall (F : Type) (A : Arith F)
            (rd_Nuclide : string -> option (nuclide F)) self st results a res,
      cache_ok rd_Nuclide self st ->
      fst (calculate rd_Nuclide self st) = inr results ->
      results !! a = Some res ->
      error res = None ->
      fltb (branching_ratio res) f_eps = false /\
      feqb (branching_ratio res) f0 = false /\
      activity_Bq res = fdiv (measured_activity self) (branching_ratio res))
    as Hgen.
  { intros F A rd_Nuclide self st results a res Hok Hcalc Hl Herr.
    destruct (successful_record rd_Nuclide self st results a res
                Hok Hcalc Hl Herr) as (i & Hi & Hs).
    apply nocache_success in Hi as (nuc & hl & _ & _ & _ & Heps & Hieq).
    cbv zeta in Heps.
    apply success_result_inv in Hs
      as (nuc' & _ & Hz & Hact & Hratio & _).
    rewrite Hratio, Hact. rewrite Hieq. simpl. rewrite Hieq in Hz.
    by repeat split. }
  split; [exact Hgen|].
  intros rd_Nuclide self st results a res Hok Hcalc Hl Herr.
  destruct (Hgen Q Q_arith rd_Nuclide self st results a res Hok Hcalc Hl Herr)
    as (_ & Hz & ->).
  simpl in *. field. intros Hr. apply Qeq_bool_iff in Hr. congruence.
Qed.

(** X6: the mass and its uncertainty use one coefficient.  In a record
    without [error] and with a supplied uncertainty, for an ancestor of
    infinite half-life both the mass and the mass uncertainty are [inf];
    otherwise the mass is the activity, and the mass uncertainty the
    activity uncertainty, times the same
    [atomic_mass / (avogadro * (ln2 / half_life))].  In exact arithmetic,
    therefore, [mass_uncertainty / mass] equals
    [activity_uncertainty / activity] whenever the mass is not zero. *)
Theorem mass_uncertainty_uses_the_mass_coefficient :
  (forall (F : Type) (A : Arith F)
          (rd_Nuclide : string -> option (nuclide F)) self st results a res u,
      cache_ok rd_Nuclide self st ->
      fst (calculate rd_Nuclide self st) = inr results ->
      results !! a = Some res ->
      error res = None ->
      measured_activity_uncertainty self = Some u ->
      exists nuc unc,
        rd_Nuclide a = Some nuc /\
        res_uncertainty res = Some unc /\
        match half_life_s nuc with
        | PosInf => mass_g res = PosInf /\ mass_uncertainty_g unc = PosInf
        | Fin hl =>
            let c := fdiv (atomic_mass nuc)
                       (fmul f_avogadro (fdiv f_ln2 hl)) in
            mass_g res = Fin (fmul (activity_Bq res) c) /\
            mass_uncertainty_g unc = Fin (fmul (activity_uncertainty_Bq unc) c)
        end)
  /\
  (forall (rd_Nuclide : string -> option (nuclide Q)) self st results a res
          u unc mass,
      cache_ok rd_Nuclide self st ->
      fst (calculate rd_Nuclide self st) = inr results ->
      results !! a = Some res ->
      error res = None ->
      measured_activity_uncertainty self = Some u ->
      res_uncertainty res = Some unc ->
      mass_g res = Fin mass ->
      ~ (mass == 0)%Q ->
      exists mass_unc,
        mass_uncertainty_g unc = Fin mass_unc /\
        (mass_unc / mass ==
         activity_uncertainty_Bq unc / activity_Bq res)%Q).
Proof.
  assert (forall (F : Type) (A : Arith F)
            (rd_Nuclide : string -> option (nuclide F)) self st results a
            res u,
      cache_ok rd_Nuclide self st ->
      fst (calculate rd_Nuclide self st) = inr results ->
      results !! a = Some res ->
      error res = None ->
      measured_activity_uncertainty self = Some u ->
      exists nuc unc,
        rd_Nuclide a = Some nuc /\
        res_uncertainty res = Some unc /\
        match half_life_s nuc with
        | PosInf => mass_g res = PosInf /\ mass_uncertainty_g unc = PosInf
        | Fin hl =>
            let c := fdiv (atomic_mass nuc)
                       (fmul f_avogadro (fdiv f_ln2 hl)) in
            mass_g res = Fin (fmul (activity_Bq res) c) /\
            mass_uncertainty_g unc = Fin (fmul (activity_uncertainty_Bq unc) c)
        end) as Hgen.
  { intros F A rd_Nuclide self st results a res u Hok Hcalc Hl Herr Hu.
    destruct (successful_record rd_Nuclide self st results a res
                Hok Hcalc Hl Herr) as (i & _ & Hs).
    apply success_result_inv in Hs
      as (nuc & Hn & _ & Hact & _ & _ & _ & _ & Hmass & Hunc).
    rewrite Hu in Hunc. destruct Hunc as (unc & Hsome & Hau & Hmu & _).
    exists nuc, unc. split; [done|]. split; [done|].
    rewrite Hmass, Hmu, Hact, Hau. by destruct (half_life_s nuc). }
  split; [exact Hgen|].
  intros rd_Nuclide self st results a res u unc mass Hok Hcalc Hl Herr Hu
    Hsome Hmass Hnz.
  destruct (Hgen Q Q_arith rd_Nuclide self st results a res u
              Hok Hcalc Hl Herr Hu) as (nuc & unc' & _ & Hsome' & Hm).
  assert (unc' = unc) as -> by congruence.
  destruct (half_life_s nuc) as [hl|]; [|destruct Hm; congruence].
  cbv zeta in Hm. destruct Hm as [Hm Hmu].
  rewrite Hmass in Hm. injection Hm as ->.
  eexists. split; [exact Hmu|]. simpl in *.
  by apply scaled_by_common_factor.
Qed.

(** ** Stripping white space *)

Section Tokens.
Variable tokens : list (list Ascii.ascii).
Hypothesis tokens_nonempty : Forall (fun k => k <> []) tokens.

Lemma head_token_Some l r :
  head_token tokens l = Some r -> exists k, k ∈ tokens /\ l = k ++ r.
Proof using Type.
  clear tokens_nonempty.
  induction tokens as [|k rest IH]; simpl; [done|].
  case_bool_decide as Hp.
  - intros [= <-]. exists k. split; [by apply elem_of_cons; left|].
    destruct Hp as [k' ->]. by rewrite drop_app_length.
  - intros Hh. destruct (IH Hh) as (k0 & Hin & ->).
    exists k0. split; [by apply elem_of_cons; right|done].
Qed.

Lemma head_token_None l :
  head_token tokens l = None <-> forall k, k ∈ tokens -> ~ k `prefix_of` l.
Proof using Type.
  clear tokens_nonempty.
  induction tokens as [|k rest IH]; simpl.
  - split; [|done]. intros _ k Hin. by apply not_elem_of_nil in Hin.
  - case_bool_decide as Hp.
    + split; [done|]. intros Hall. exfalso. apply (Hall k); [|done].
      by apply elem_of_cons; left.
    + rewrite IH. split.
      * intros Hall k0 [->|Hin]%elem_of_cons; [done|by apply Hall].
      * intros Hall k0 Hin. apply Hall. by apply elem_of_cons; right.
Qed.

Lemma head_token_nil : head_token tokens [] = None.
Proof using tokens_nonempty.
  apply head_token_None. intros k Hin Hp. apply prefix_nil_inv in Hp.
  rewrite Forall_forall in tokens_nonempty. by apply (tokens_nonempty k).
Qed.

Lemma head_token_shorter l r :
  head_token tokens l = Some r -> length r < length l.
Proof using tokens_nonempty.
  intros (k & Hin & ->)%head_token_Some. rewrite length_app.
  rewrite Forall_forall in tokens_nonempty.
  specialize (tokens_nonempty k Hin). destruct k; [done|simpl; lia].
Qed.

Lemma lstrip_fuel_suffix fuel l : lstrip_fuel tokens fuel l `suffix_of` l.
Proof using Type.
  clear tokens_nonempty. revert l.
  induction fuel as [|fuel IH]; intros l; simpl; [done|].
  destruct (head_token tokens l) as [r|] eqn:Hh; [|done].
  apply head_token_Some in Hh as (k & _ & ->).
  etrans; [apply IH|]. by apply suffix_app_r.
Qed.

Lemma lstrip_fuel_clean fuel l :
  length l <= fuel -> head_token tokens (lstrip_fuel tokens fuel l) = None.
Proof using tokens_nonempty.
  revert l. induction fuel as [|fuel IH]; intros l Hlen; simpl.
  - destruct l; [apply head_token_nil|simpl in Hlen; lia].
  - destruct (head_token tokens l) as [r|] eqn:Hh; [|done].
    apply IH. apply head_token_shorter in Hh. lia.
Qed.

Lemma lstrip_with_suffix l : lstrip_with tokens l `suffix_of` l.
Proof using Type. apply lstrip_fuel_suffix. Qed.

Lemma lstrip_with_clean l : head_token tokens (lstrip_with tokens l) = None.
Proof using tokens_nonempty. by apply lstrip_fuel_clean. Qed.

Lemma lstrip_with_id l : head_token tokens l = None -> lstrip_with tokens l = l.
Proof using Type.
  clear tokens_nonempty. intros Hh. unfold lstrip_with.
  destruct (length l); simpl; [done|]. by rewrite Hh.
Qed.

Lemma head_token_prefix l p :
  head_token tokens l = None -> p `prefix_of` l -> head_token tokens p = None.
Proof using Type.
  clear tokens_nonempty. rewrite !head_token_None. intros Hall Hp k Hin Hk.
  apply (Hall k Hin). by etrans.
Qed.

(** A token stops short of a byte it does not contain. *)
Lemma head_token_before_separator a b sep :
  Forall (fun k => sep ∉ k) tokens ->
  a <> [] ->
  head_token tokens a = None ->
  head_token tokens (a ++ sep :: b) = None.
Proof using Type.
  clear tokens_nonempty. rewrite !head_token_None, Forall_forall.
  intros Hsep Ha Hall k Hin Hk.
  destruct (prefix_weak_total k a (a ++ sep :: b)) as [Hka|Hak];
    [done|by apply prefix_app_r|by apply (Hall k)|].
  destruct Hak as [k' ->]. destruct Hk as [c Hc].
  rewrite <- app_assoc in Hc. apply app_inv_head in Hc.
  destruct k' as [|x k'].
  - apply (Hall a); [by rewrite app_nil_r in Hin|done].
  - injection Hc as <- _. apply (Hsep _ Hin).
    apply elem_of_app. right. by apply elem_of_cons; left.
Qed.

End Tokens.

Lemma whitespace_nonempty : Forall (fun k => k <> []) whitespace.
Proof. unfold whitespace. simpl. repeat constructor; discriminate. Qed.

Lemma whitespace_reversed_nonempty :
  Forall (fun k => k <> []) (reverse <$> whitespace).
Proof. unfold whitespace. simpl. repeat constructor; discriminate. Qed.

Lemma rstrip_bytes_prefix l : rstrip_bytes l `prefix_of` l.
Proof.
  unfold rstrip_bytes.
  pose proof (lstrip_with_suffix (reverse <$> whitespace) (reverse l)) as H.
  apply suffix_prefix_reverse in H. by rewrite reverse_involutive in H.
Qed.

Lemma rstrip_bytes_clean l : clean_right (rstrip_bytes l).
Proof.
  unfold clean_right, rstrip_bytes. rewrite reverse_involutive.
  apply lstrip_with_clean, whitespace_reversed_nonempty.
Qed.

Lemma rstrip_bytes_id l : clean_right l -> rstrip_bytes l = l.
Proof.
  intros Hc. unfold rstrip_bytes. rewrite lstrip_with_id by done.
  apply reverse_involutive.
Qed.

Lemma strip_bytes_clean l : clean_left (strip_bytes l) /\ clean_right (strip_bytes l).
Proof.
  split; [|apply rstrip_bytes_clean].
  eapply head_token_prefix; [|apply rstrip_bytes_prefix].
  apply lstrip_with_clean, whitespace_nonempty.
Qed.

Lemma strip_bytes_id l : clean_left l -> clean_right l -> strip_bytes l = l.
Proof.
  intros Hl Hr. unfold strip_bytes. rewrite lstrip_with_id by done.
  by apply rstrip_bytes_id.
Qed.

Lemma strip_bytes_fixed l :
  strip_bytes l = l <-> clean_left l /\ clean_right l.
Proof.
  split; [|by intros [? ?]; apply strip_bytes_id].
  intros Heq. rewrite <- Heq. apply strip_bytes_clean.
Qed.

Lemma strip_bytes_idempotent l : strip_bytes (strip_bytes l) = strip_bytes l.
Proof. apply strip_bytes_id; apply strip_bytes_clean. Qed.

Lemma str_strip_bytes s :
  String.list_ascii_of_string (str_strip s) =
    strip_bytes (String.list_ascii_of_string s).
Proof. unfold str_strip. apply String.list_ascii_of_string_of_list_ascii. Qed.

Lemma str_strip_idempotent s : str_strip (str_strip s) = str_strip s.
Proof.
  unfold str_strip at 1. by rewrite str_strip_bytes, strip_bytes_idempotent.
Qed.

Lemma str_strip_fixed s :
  str_strip s = s <->
  clean_left (String.list_ascii_of_string s) /\
  clean_right (String.list_ascii_of_string s).
Proof.
  rewrite <- strip_bytes_fixed. unfold str_strip. split.
  - intros Heq. rewrite <- Heq at 2.
    by rewrite String.list_ascii_of_string_of_list_ascii.
  - intros ->. apply String.string_of_list_ascii_of_string.
Qed.

(** ** Decay-type normalisation *)

Lemma dict_get_spec key (d : list (string * string)) default :
  dict_get key d default = default /\ key ∉ map fst d \/
  dict_get key d default ∈ map snd d /\ key ∈ map fst d.
Proof.
  induction d as [|[k v] d IH]; simpl.
  - left. split; [done|]. apply not_elem_of_nil.
  - destruct (String.eqb k key) eqn:Hk.
    + apply String.eqb_eq in Hk. subst k. right.
      split; apply elem_of_cons; by left.
    + apply String.eqb_neq in Hk. destruct IH as [[Hget Hnin]|[Hget Hin]].
      * left. split; [done|]. rewrite elem_of_cons. by intros [|].
      * right. split; apply elem_of_cons; by right.
Qed.

Lemma shorthand_values_valid v :
  v ∈ map snd decay_type_map ->
  v ∈ VALID_DECAY_TYPES /\ str_strip v = v.
Proof.
  unfold decay_type_map. simpl. intros Hin.
  repeat (apply elem_of_cons in Hin as [->|Hin];
          [split; [apply (bool_decide_unpack _); vm_compute; exact I
                  |vm_compute; reflexivity]|]).
  by apply not_elem_of_nil in Hin.
Qed.

Lemma normalize_Some raw :
  _normalize_decay_type (Some raw) =
    if bool_decide (str_strip raw ∈ VALID_DECAY_TYPES)
    then Some (str_strip raw)
    else Some (dict_get (str_lower (str_strip raw)) decay_type_map
                 (str_strip raw)).
Proof. reflexivity. Qed.

Lemma normalize_Some_spec raw :
  exists v,
    _normalize_decay_type (Some raw) = Some v /\
    _normalize_decay_type (Some v) = Some v /\
    (v ∈ VALID_DECAY_TYPES <-> recognised_decay_type raw) /\
    (~ recognised_decay_type raw -> v = str_strip raw).
Proof.
  unfold recognised_decay_type.
  rewrite (normalize_Some raw). case_bool_decide as Hvalid.
  - eexists. split; [done|]. split.
    + rewrite normalize_Some, str_strip_idempotent.
      by rewrite bool_decide_eq_true_2.
    + split; [by split; [left|]|].
      intros Hn. exfalso. apply Hn. by left.
  - destruct (dict_get_spec (str_lower (str_strip raw)) decay_type_map
                (str_strip raw)) as [[Hget Hkey]|[Hget Hkey]].
    + rewrite Hget. eexists. split; [done|]. split.
      * rewrite normalize_Some, str_strip_idempotent.
        rewrite bool_decide_eq_false_2 by done. by rewrite Hget.
      * split; [|done]. split; [done|]. by intros [|].
    + destruct (shorthand_values_valid _ Hget) as [Hv Hs].
      eexists. split; [done|]. split.
      * rewrite normalize_Some, Hs. by rewrite bool_decide_eq_true_2.
      * split; [by split; [right|]|].
        intros Hn. exfalso. apply Hn. by right.
Qed.

(** X7: normalising twice is normalising once, and the result is one of
    the ten valid symbols exactly when the stripped input is one of them or
    its lower-case form is a shorthand; otherwise the stripped input comes
    back unchanged. *)
Theorem normalize_decay_type_idempotent (decay_type : option string) :
  _normalize_decay_type (_normalize_decay_type decay_type) =
    _normalize_decay_type decay_type /\
  match decay_type with
  | None => _normalize_decay_type decay_type = None
  | Some raw =>
      exists v,
        _normalize_decay_type decay_type = Some v /\
        (v ∈ VALID_DECAY_TYPES <-> recognised_decay_type raw) /\
        (~ recognised_decay_type raw -> v = str_strip raw)
  end.
Proof.
  destruct decay_type as [raw|]; [|done].
  destruct (normalize_Some_spec raw) as (v & Hn & Hidem & Hvalid & Hother).
  rewrite Hn. split; [done|]. by exists v.
Qed.

(** ** Construction *)

Lemma is_space_token c : is_space c = true -> [c] ∈ whitespace.
Proof.
  destruct c as [[] [] [] [] [] [] [] []]; intros H; vm_compute in H;
    try discriminate H; apply (bool_decide_unpack _); vm_compute; exact I.
Qed.

(** A stripped string has white space only if it is empty. *)
Lemma is_blank_stripped raw :
  is_blank (str_strip raw) = true <-> str_strip raw = "".
Proof.
  split; [|by intros ->].
  pose proof (proj1 (strip_bytes_clean (String.list_ascii_of_string raw)))
    as Hclean.
  rewrite <- str_strip_bytes in Hclean.
  destruct (str_strip raw) as [|c rest]; [done|]. simpl.
  intros [Hc _]%andb_prop. exfalso.
  apply (proj1 (head_token_None _ _) Hclean [c]).
  - by apply is_space_token.
  - simpl. by exists (String.list_ascii_of_string rest).
Qed.

Lemma valid_decay_type_not_blank dt :
  dt ∈ VALID_DECAY_TYPES -> is_blank dt = false.
Proof.
  intros Hin. unfold VALID_DECAY_TYPES in Hin.
  repeat (apply elem_of_cons in Hin as [->|Hin]; [vm_compute; reflexivity|]).
  by apply not_elem_of_nil in Hin.
Qed.

Section Construction.
Context {F : Type} `{!Arith F}.
Variable rd_Nuclide : string -> option (nuclide F).

Lemma validate_parents_ok parents :
  validate_parents rd_Nuclide parents = inr tt <->
  Forall (fun p => is_Some (rd_Nuclide p)) parents.
Proof.
  induction parents as [|p rest IH]; simpl; [by split|].
  unfold _is_nuclide_name. destruct (rd_Nuclide p) as [nuc|] eqn:Hp.
  - rewrite IH. split; [intros; constructor; [by rewrite Hp|done]|].
    by intros [_ ?]%Forall_cons.
  - split; [done|]. intros [[? Hs] _]%Forall_cons. by rewrite Hp in Hs.
Qed.

Lemma validate_parents_first_unknown good bad rest :
  Forall (fun p => is_Some (rd_Nuclide p)) good ->
  rd_Nuclide bad = None ->
  validate_parents rd_Nuclide (good ++ bad :: rest) =
    inl (ValueError ("Invalid parent nuclide name: " +:+ bad)).
Proof.
  intros Hgood Hbad. induction Hgood as [|p good [nuc Hp] _ IH]; simpl.
  - unfold _is_nuclide_name. by rewrite Hbad.
  - unfold _is_nuclide_name. by rewrite Hp.
Qed.

(** What [_validate_nuclides] checks, in its order. *)
Lemma validate_nuclides_spec self :
  _validate_nuclides rd_Nuclide self =
    match rd_Nuclide (measured_nuclide self) with
    | None =>
        inl (ValueError
               ("Invalid measured nuclide name: " +:+ measured_nuclide self))
    | Some _ =>
        match validate_parents rd_Nuclide (parent_nuclides self) with
        | inl e => inl e
        | inr _ =>
            match decay_type self with
            | Some dt =>
                if is_blank dt then
                  inl (ValueError ("Invalid decay type: " +:+ dt +:+
                                   ". Must be a non-empty string."))
                else if bool_decide (dt ∈ VALID_DECAY_TYPES) then
                  match measured_activity_uncertainty self with
                  | Some u =>
                      if fltb u f0 then
                        inl (ValueError
                               "measured_activity_uncertainty must be >= 0")
                      else inr tt
                  | None => inr tt
                  end
                else
                  inl (ValueError ("Invalid decay type: " +:+ dt +:+
                                   ". Valid types: " +:+
                                   join ", " VALID_DECAY_TYPES))
            | None =>
                match measured_activity_uncertainty self with
                | Some u =>
                    if fltb u f0 then
                      inl (ValueError
                             "measured_activity_uncertainty must be >= 0")
                    else inr tt
                | None => inr tt
                end
            end
        end
    end.
Proof.
  unfold _validate_nuclides, _is_nuclide_name.
  destruct (rd_Nuclide (measured_nuclide self)); [|done]. simpl.
  destruct (validate_parents rd_Nuclide (parent_nuclides self)) as [e|[]];
    [done|]. simpl.
  destruct (decay_type self) as [dt|]; [|done].
  destruct (is_blank dt); [done|].
  by destruct (bool_decide (dt ∈ VALID_DECAY_TYPES)).
Qed.

End Construction.

Section ConstructionStatements.
Context {F : Type} `{!Arith F}.
Variable rd_Nuclide : string -> option (nuclide F).

(** The conditions [__init__] checks, on its arguments. *)
Lemma construction_spec measured activity parents raw unc paths :
  let self :=
    {| measured_nuclide := measured;
       measured_activity := activity;
       parent_nuclides := parents;
       decay_type := _normalize_decay_type raw;
       measured_activity_uncertainty := unc;
       include_paths := paths |} in
  let ok :=
    is_Some (rd_Nuclide measured) /\
    Forall (fun p => is_Some (rd_Nuclide p)) parents /\
    (forall r, raw = Some r -> recognised_decay_type r) /\
    (forall u, unc = Some u -> fltb u f0 = false) in
  (ok ->
   SecularEquilibriumCalculator rd_Nuclide measured activity parents raw unc
     paths = inr (self, empty_caches)) /\
  (~ ok ->
   exists msg,
     SecularEquilibriumCalculator rd_Nuclide measured activity parents raw
       unc paths = inl (ValueError msg)).
Proof.
  cbv zeta. unfold SecularEquilibriumCalculator, new_calculator.
  rewrite validate_nuclides_spec. simpl.
  destruct (rd_Nuclide measured) as [nuc|] eqn:Hm; simpl.
  2:{ split; [by intros [[? ?] _]|]. intros _. by eexists. }
  destruct (validate_parents rd_Nuclide parents) as [e|[]] eqn:Hp; simpl.
  { assert (~ Forall (fun p => is_Some (rd_Nuclide p)) parents) as Hbad.
    { intros Hall. apply validate_parents_ok in Hall. congruence. }
    split; [by intros (_ & ? & _)|]. intros _.
    clear -Hp. induction parents as [|p rest IH]; simpl in Hp; [done|].
    destruct (_is_nuclide_name rd_Nuclide p); [by apply IH|].
    injection Hp as <-. by eexists. }
  apply validate_parents_ok in Hp.
  destruct raw as [r|].
  - destruct (normalize_Some_spec r) as (v & Hn & _ & Hvalid & _).
    rewrite Hn.
    destruct (decide (v ∈ VALID_DECAY_TYPES)) as [Hv|Hv].
    + rewrite (valid_decay_type_not_blank v Hv).
      rewrite bool_decide_eq_true_2 by done.
      destruct unc as [u|]; simpl.
      * destruct (fltb u f0) eqn:Hu; simpl.
        -- split; [|by eexists]. intros (_ & _ & _ & Hall).
           by rewrite (Hall u eq_refl) in Hu.
        -- split; [done|]. intros Hnot. exfalso. apply Hnot.
           repeat split; try done.
           ++ intros r' [= <-]. by apply Hvalid.
           ++ by intros u' [= <-].
      * split; [done|]. intros Hnot. exfalso. apply Hnot.
        repeat split; try done. intros r' [= <-]. by apply Hvalid.
    + assert (~ recognised_decay_type r) as Hr by (by rewrite <- Hvalid).
      destruct (is_blank v); simpl.
      * split; [|by eexists]. intros (_ & _ & Hall & _). by destruct Hr; apply Hall.
      * rewrite bool_decide_eq_false_2 by done.
        split; [|by eexists]. intros (_ & _ & Hall & _).
        by destruct Hr; apply Hall.
  - simpl. destruct unc as [u|]; simpl.
    + destruct (fltb u f0) eqn:Hu; simpl.
      * split; [|by eexists]. intros (_ & _ & _ & Hall).
        by rewrite (Hall u eq_refl) in Hu.
      * split; [done|]. intros Hnot. exfalso. apply Hnot.
        repeat split; try done. by intros u' [= <-].
    + split; [done|]. intros Hnot. exfalso. by apply Hnot.
Qed.

Lemma construction_conditions_decidable measured parents
    (raw : option string) (unc : option F) :
  let ok :=
    is_Some (rd_Nuclide measured) /\
    Forall (fun p => is_Some (rd_Nuclide p)) parents /\
    (forall r, raw = Some r -> recognised_decay_type r) /\
    (forall u, unc = Some u -> fltb u f0 = false) in
  ok \/ ~ ok.
Proof.
  cbv zeta.
  destruct (decide (is_Some (rd_Nuclide measured))) as [Hm|Hm];
    [|right; by intros [? _]].
  destruct (decide (Forall (fun p => is_Some (rd_Nuclide p)) parents))
    as [Hp|Hp]; [|right; by intros (_ & ? & _)].
  assert ((forall r, raw = Some r -> recognised_decay_type r) \/
          ~ (forall r, raw = Some r -> recognised_decay_type r)) as [Hr|Hr].
  { destruct raw as [r|]; [|by left]. unfold recognised_decay_type.
    destruct (decide (str_strip r ∈ VALID_DECAY_TYPES)) as [Hv|Hv].
    { left. intros r' [= <-]. by left. }
    destruct (decide (str_lower (str_strip r) ∈ map fst decay_type_map))
      as [Hk|Hk].
    { left. intros r' [= <-]. by right. }
    right. intros Hall. by destruct (Hall r eq_refl). }
  2:{ right. by intros (_ & _ & ? & _). }
  destruct unc as [u|].
  - destruct (fltb u f0) eqn:Hu.
    + right. intros (_ & _ & _ & Hall). by rewrite (Hall u eq_refl) in Hu.
    + left. repeat split; try done. by intros u' [= <-].
  - left. by repeat split.
Qed.

(** X8: construction succeeds exactly when the database knows the measured
    nuclide and every ancestor, the decay type is absent or recognised
    (a valid symbol, or a shorthand in any case, white space around it
    ignored), and the uncertainty is absent or not below zero.  It then
    yields the instance with the arguments as given, the decay type
    normalised to one of the ten symbols, and empty caches; otherwise it
    raises a [ValueError] and nothing else. *)
Theorem construction_accepts_exactly_valid_arguments
    measured activity parents raw unc paths :
  let out :=
    SecularEquilibriumCalculator rd_Nuclide measured activity parents raw unc
      paths in
  let ok :=
    is_Some (rd_Nuclide measured) /\
    Forall (fun p => is_Some (rd_Nuclide p)) parents /\
    (forall r, raw = Some r -> recognised_decay_type r) /\
    (forall u, unc = Some u -> fltb u f0 = false) in
  ((exists c st, out = inr (c, st)) <-> ok) /\
  (forall c st,
      out = inr (c, st) ->
      st = empty_caches /\
      c = {| measured_nuclide := measured;
             measured_activity := activity;
             parent_nuclides := parents;
             decay_type := _normalize_decay_type raw;
             measured_activity_uncertainty := unc;
             include_paths := paths |} /\
      forall dt, decay_type c = Some dt -> dt ∈ VALID_DECAY_TYPES) /\
  (forall e, out = inl e -> exists msg, e = ValueError msg).
Proof.
  cbv zeta.
  destruct (construction_spec measured activity parents raw unc paths)
    as [Hyes Hno].
  destruct (construction_conditions_decidable measured parents raw unc)
    as [Hok|Hnok].
  - rewrite (Hyes Hok). split; [by split; [|eexists _, _]|].
    split; [|done]. intros c st [= <- <-]. split; [done|]. split; [done|].
    simpl. intros dt Hdt. destruct Hok as (_ & _ & Hr & _).
    destruct raw as [r|]; [|done].
    destruct (normalize_Some_spec r) as (v & Hn & _ & Hvalid & _).
    rewrite Hn in Hdt. injection Hdt as <-. apply Hvalid. by apply Hr.
  - destruct (Hno Hnok) as [msg ->]. split; [|split].
    + split; [by intros (? & ? & ?)|done].
    + done.
    + intros e [= <-]. by exists msg.
Qed.

(** X9: validation reports the first problem, in the order measured
    nuclide, ancestors in list order, decay type, uncertainty, each with
    its own message: an unknown measured nuclide is named whatever else is
    wrong; else the first unknown ancestor of the list; else a decay type
    that is blank after stripping, or one that is not recognised (quoted
    stripped, with the list of valid types); else an uncertainty below
    zero. *)
Theorem construction_reports_the_first_problem
    measured activity parents raw unc paths :
  let out :=
    SecularEquilibriumCalculator rd_Nuclide measured activity parents raw unc
      paths in
  (rd_Nuclide measured = None ->
   out = inl (ValueError ("Invalid measured nuclide name: " +:+ measured))) /\
  (is_Some (rd_Nuclide measured) ->
   forall good bad rest,
     parents = good ++ bad :: rest ->
     Forall (fun p => is_Some (rd_Nuclide p)) good ->
     rd_Nuclide bad = None ->
     out = inl (ValueError ("Invalid parent nuclide name: " +:+ bad))) /\
  (is_Some (rd_Nuclide measured) ->
   Forall (fun p => is_Some (rd_Nuclide p)) parents ->
   forall r,
     raw = Some r ->
     ~ recognised_decay_type r ->
     out =
       inl (ValueError
              (if String.eqb (str_strip r) ""
               then "Invalid decay type: . Must be a non-empty string."
               else "Invalid decay type: " +:+ str_strip r +:+
                    ". Valid types: α, β-, β+, EC, SF, IT, p, n, d, t"))) /\
  (is_Some (rd_Nuclide measured) ->
   Forall (fun p => is_Some (rd_Nuclide p)) parents ->
   (forall r, raw = Some r -> recognised_decay_type r) ->
   forall u,
     unc = Some u ->
     fltb u f0 = true ->
     out = inl (ValueError "measured_activity_uncertainty must be >= 0")).
Proof.
  cbv zeta. unfold SecularEquilibriumCalculator, new_calculator.
  rewrite validate_nuclides_spec. simpl.
  split; [by intros ->|]. split; [|split].
  - intros [nuc ->] good bad rest -> Hgood Hbad.
    by rewrite (validate_parents_first_unknown rd_Nuclide good bad rest Hgood
         Hbad).
  - intros [nuc ->] Hp%validate_parents_ok r -> Hr. rewrite Hp.
    destruct (normalize_Some_spec r) as (v & Hn & _ & Hvalid & Hother).
    rewrite Hn. specialize (Hother Hr). subst v.
    destruct (String.eqb (str_strip r) "") eqn:Hempty.
    + apply String.eqb_eq in Hempty. by rewrite Hempty.
    + apply String.eqb_neq in Hempty.
      destruct (is_blank (str_strip r)) eqn:Hb;
        [by apply is_blank_stripped in Hb|].
      rewrite bool_decide_eq_false_2 by (by rewrite Hvalid). done.
  - intros [nuc ->] Hp%validate_parents_ok Hr u -> Hu. rewrite Hp.
    destruct raw as [r|].
    + destruct (normalize_Some_spec r) as (v & Hn & _ & Hvalid & _).
      rewrite Hn.
      assert (v ∈ VALID_DECAY_TYPES) as Hv by (by apply Hvalid, Hr).
      rewrite (valid_decay_type_not_blank v Hv).
      rewrite bool_decide_eq_true_2 by done. by rewrite Hu.
    + simpl. by rewrite Hu.
Qed.

End ConstructionStatements.

(** ** The parent list of the command line *)

Lemma bytes_app a b :
  String.list_ascii_of_string (a +:+ b) =
    String.list_ascii_of_string a ++ String.list_ascii_of_string b.
Proof. induction a as [|c a IH]; simpl; [done|]. by rewrite IH. Qed.

Lemma bytes_nil s : String.list_ascii_of_string s = [] -> s = "".
Proof. by destruct s. Qed.

(** [c in s] for a one-character string [c]. *)
Lemma str_contains_char c s :
  str_contains (String c "") s = true <-> c ∈ String.list_ascii_of_string s.
Proof.
  induction s as [|d s IH]; simpl.
  - split; [intros [=]|]. by intros ?%not_elem_of_nil.
  - destruct (Ascii.ascii_dec c d) as [->|Hne]; simpl.
    + assert (String.prefix "" s = true) as -> by (by destruct s).
      split; [|done]. intros _. by apply elem_of_cons; left.
    + rewrite IH. rewrite elem_of_cons. split; [by right|by intros [|]].
Qed.

Lemma split_bytes_none sep l : sep ∉ l -> split_bytes sep l = [l].
Proof.
  induction l as [|c l IH]; [done|]. intros Hnin. simpl.
  destruct (Ascii.eqb c sep) eqn:Hc.
  - apply Ascii.eqb_eq in Hc. subst. destruct Hnin. by apply elem_of_cons; left.
  - rewrite IH; [done|]. intros Hin. apply Hnin. by apply elem_of_cons; right.
Qed.

Lemma split_bytes_first sep a b :
  sep ∉ a -> split_bytes sep (a ++ sep :: b) = a :: split_bytes sep b.
Proof.
  induction a as [|c a IH]; intros Hnin; simpl.
  - by rewrite Ascii.eqb_refl.
  - destruct (Ascii.eqb c sep) eqn:Hc.
    + apply Ascii.eqb_eq in Hc. subst. destruct Hnin.
      by apply elem_of_cons; left.
    + rewrite IH; [done|]. intros Hin. apply Hnin. by apply elem_of_cons; right.
Qed.

Lemma str_app_assoc a b c : (a +:+ b) +:+ c = a +:+ (b +:+ c).
Proof.
  induction a as [|x a IH]; [done|].
  change (String x ((a +:+ b) +:+ c) = String x (a +:+ (b +:+ c))).
  by f_equal.
Qed.

Lemma join_cons sep x y rest :
  join sep (x :: y :: rest) = x +:+ sep +:+ join sep (y :: rest).
Proof. reflexivity. Qed.

Lemma join_snoc sep init x :
  init <> [] -> join sep (init ++ [x]) = join sep init +:+ sep +:+ x.
Proof.
  induction init as [|y init IH]; [done|]. intros _.
  destruct init as [|z init]; [done|].
  change ((y :: z :: init) ++ [x]) with (y :: (z :: init) ++ [x]).
  change ((z :: init) ++ [x]) with (z :: init ++ [x]) at 1.
  rewrite join_cons. change (z :: init ++ [x]) with ((z :: init) ++ [x]).
  rewrite IH by done. rewrite join_cons.
  by rewrite !str_app_assoc.
Qed.


Lemma strings_of_bytes items :
  map String.string_of_list_ascii (map String.list_ascii_of_string items) =
    items.
Proof.
  induction items as [|x items IH]; simpl; [done|].
  by rewrite String.string_of_list_ascii_of_string, IH.
Qed.

Lemma keep_stripped items :
  Forall (fun x => x <> "" /\ str_strip x = x) items ->
  map str_strip
    (List.filter (fun item => negb (String.eqb (str_strip item) "")) items) =
    items.
Proof.
  intros Hall. induction Hall as [|x items [Hne Hs] _ IH]; simpl; [done|].
  rewrite Hs. apply String.eqb_neq in Hne. rewrite Hne. simpl.
  by rewrite Hs, IH.
Qed.

Lemma whitespace_has_no_separator :
  (Forall (fun k => Ascii.ascii_of_nat 59 ∉ k) whitespace /\
   Forall (fun k => Ascii.ascii_of_nat 59 ∉ k) (reverse <$> whitespace)) /\
  (Forall (fun k => Ascii.ascii_of_nat 44 ∉ k) whitespace /\
   Forall (fun k => Ascii.ascii_of_nat 44 ∉ k) (reverse <$> whitespace)).
Proof.
  repeat split; apply (bool_decide_unpack _); vm_compute; exact I.
Qed.

(** A list written with the one-character separator [c], which is no
    white space. *)
Section SeparatedList.
Variable c : Ascii.ascii.
Hypothesis c_no_whitespace :
  Forall (fun k => c ∉ k) whitespace /\
  Forall (fun k => c ∉ k) (reverse <$> whitespace).

Lemma bytes_join_cons x y rest :
  String.list_ascii_of_string (join (String c "") (x :: y :: rest)) =
    String.list_ascii_of_string x ++
    c :: String.list_ascii_of_string (join (String c "") (y :: rest)).
Proof. by rewrite join_cons, !bytes_app. Qed.

Lemma bytes_join_snoc init x :
  init <> [] ->
  String.list_ascii_of_string (join (String c "") (init ++ [x])) =
    String.list_ascii_of_string (join (String c "") init) ++
    c :: String.list_ascii_of_string x.
Proof. intros Hne. by rewrite join_snoc, !bytes_app. Qed.

Lemma split_join items :
  items <> [] ->
  Forall (fun x => c ∉ String.list_ascii_of_string x) items ->
  split_bytes c (String.list_ascii_of_string (join (String c "") items)) =
    map String.list_ascii_of_string items.
Proof.
  intros Hne Hall. induction Hall as [|x items Hx Hall IH]; [done|].
  destruct items as [|y rest].
  - simpl. by apply split_bytes_none.
  - rewrite bytes_join_cons, split_bytes_first by done.
    by rewrite IH.
Qed.

(** A character that is in no item and is not the separator is not in
    the joined text. *)
Lemma join_avoids d items :
  d <> c ->
  Forall (fun x => d ∉ String.list_ascii_of_string x) items ->
  d ∉ String.list_ascii_of_string (join (String c "") items).
Proof.
  intros Hdc Hall. induction Hall as [|x items Hx Hall IH].
  - simpl. apply not_elem_of_nil.
  - destruct items as [|y rest]; [done|].
    rewrite bytes_join_cons, elem_of_app, elem_of_cons.
    intros [Hin|[Heq|Hin]]; [by apply Hx|done|by apply IH].
Qed.

(** The joined text of two or more clean items has no white space at
    either end, is not empty, contains the separator, and splits at the
    separator into the items. *)
Lemma joined_text items :
  2 <= length items ->
  Forall (fun x => x <> "" /\ str_strip x = x /\
                   c ∉ String.list_ascii_of_string x) items ->
  str_strip (join (String c "") items) = join (String c "") items /\
  join (String c "") items <> "" /\
  str_contains (String c "") (join (String c "") items) = true /\
  map str_strip
    (List.filter (fun item => negb (String.eqb (str_strip item) ""))
       (str_split c (join (String c "") items))) = items.
Proof.
  intros Hlen Hall.
  assert (Forall (fun x => x <> "" /\ str_strip x = x) items) as Hclean
    by (eapply Forall_impl; [exact Hall|]; by intros x (? & ? & _)).
  assert (Forall (fun x => c ∉ String.list_ascii_of_string x) items) as Hsep
    by (eapply Forall_impl; [exact Hall|]; by intros x (_ & _ & ?)).
  destruct c_no_whitespace as [Hws Hws'].
  destruct items as [|x [|y rest]]; [simpl in Hlen; lia..|].
  split; [|split; [|split]].
  - apply str_strip_fixed. split.
    + rewrite bytes_join_cons. unfold clean_left.
      apply Forall_cons in Hclean as [[Hne Hx] _].
      apply str_strip_fixed in Hx as [Hl _].
      apply head_token_before_separator; [done| |done].
      intros Hnil. by apply bytes_nil in Hnil.
    + destruct (exists_last (l:=x :: y :: rest)) as (init & last & Heq);
        [done|].
      rewrite Heq in *.
      assert (init <> []) as Hinit.
      { intros ->. apply (f_equal length) in Heq. simpl in Heq. lia. }
      rewrite bytes_join_snoc by done. unfold clean_right.
      rewrite reverse_app, reverse_cons, <- app_assoc.
      change ([c] ++ ?l) with (c :: l).
      apply Forall_app in Hclean as [_ Hlast].
      apply Forall_cons in Hlast as [[Hne Hlast] _].
      apply str_strip_fixed in Hlast as [_ Hr].
      apply head_token_before_separator; [done| |done].
      intros Hnil. apply (f_equal reverse) in Hnil.
      rewrite reverse_involutive in Hnil. by apply bytes_nil in Hnil.
  - intros Hnil. apply (f_equal String.list_ascii_of_string) in Hnil.
    rewrite bytes_join_cons in Hnil.
    by destruct (String.list_ascii_of_string x).
  - apply str_contains_char.
    rewrite bytes_join_cons. apply elem_of_app. right.
    by apply elem_of_cons; left.
  - unfold str_split. rewrite split_join by done.
    by rewrite strings_of_bytes, keep_stripped.
Qed.

End SeparatedList.

Lemma lacks_char d x :
  str_contains (String d "") x = false -> d ∉ String.list_ascii_of_string x.
Proof. intros Hc Hin. apply str_contains_char in Hin. congruence. Qed.

(** X10: every item [_parse_parent_nuclides] returns is non-empty and has
    no white space at either end, so that stripping it changes nothing;
    and nothing is returned for a missing, empty or blank text. *)
Theorem parsed_parents_are_stripped_and_nonempty (raw_value : option string) :
  Forall (fun item => item <> "" /\ str_strip item = item)
    (_parse_parent_nuclides raw_value) /\
  (str_strip (default "" raw_value) = "" ->
   _parse_parent_nuclides raw_value = []).
Proof.
  unfold _parse_parent_nuclides. cbv zeta.
  destruct (String.eqb (str_strip (default "" raw_value)) "") eqn:Hblank.
  - by split.
  - apply String.eqb_neq in Hblank. split; [|done].
    apply List.Forall_forall. intros item Hin.
    apply in_map_iff in Hin as (part & <- & Hin).
    apply filter_In in Hin as [_ Hkeep].
    rewrite str_strip_idempotent. split; [|done].
    apply negb_true_iff, String.eqb_neq in Hkeep. done.
Qed.

(** X11: a list of two or more names written with semicolons between them
    parses back to the same list, when each name is non-empty, has no
    white space at either end and contains no semicolon; commas and inner
    spaces stay inside the names. *)
Theorem semicolon_separated_parents_parse_back (items : list string) :
  2 <= length items ->
  Forall (fun x => x <> "" /\ str_strip x = x /\ str_contains ";" x = false)
    items ->
  _parse_parent_nuclides (Some (join ";" items)) = items.
Proof.
  intros Hlen Hall.
  destruct (joined_text (Ascii.ascii_of_nat 59)
              (proj1 whitespace_has_no_separator) items Hlen)
    as (Hstrip & Hne & Hsemi & Hparts).
  { eapply Forall_impl; [exact Hall|]. intros x (? & ? & Hc).
    split; [done|]. split; [done|]. by apply lacks_char. }
  apply String.eqb_neq in Hne.
  revert Hstrip Hne Hsemi Hparts.
  change (String (Ascii.ascii_of_nat 59) "") with ";".
  generalize (join ";" items) as text.
  intros text Hstrip Hne Hsemi Hparts.
  unfold _parse_parent_nuclides.
  change (default "" (Some text)) with text. cbv zeta.
  by rewrite Hstrip, Hne, Hsemi.
Qed.

(** X12: the comma is the separator only when the text has no semicolon.
    A list of two or more names written with commas between them parses
    back to the same list, when each name is non-empty, has no white space
    at either end and contains neither a comma nor a semicolon; inner
    spaces stay inside the names. *)
Theorem comma_separated_parents_parse_back (items : list string) :
  2 <= length items ->
  Forall (fun x => x <> "" /\ str_strip x = x /\
                   str_contains "," x = false /\
                   str_contains ";" x = false)
    items ->
  _parse_parent_nuclides (Some (join "," items)) = items.
Proof.
  intros Hlen Hall.
  destruct (joined_text (Ascii.ascii_of_nat 44)
              (proj2 whitespace_has_no_separator) items Hlen)
    as (Hstrip & Hne & Hcomma & Hparts).
  { eapply Forall_impl; [exact Hall|]. intros x (? & ? & Hc & _).
    split; [done|]. split; [done|]. by apply lacks_char. }
  apply String.eqb_neq in Hne.
  assert (str_contains ";" (join (String (Ascii.ascii_of_nat 44) "") items) =
            false) as Hsemi.
  { destruct (str_contains ";" _) eqn:Hc; [|done].
    apply (str_contains_char (Ascii.ascii_of_nat 59)) in Hc.
    apply join_avoids in Hc; [done|done|].
    eapply Forall_impl; [exact Hall|]. intros x (_ & _ & _ & Hx).
    by apply lacks_char. }
  revert Hstrip Hne Hcomma Hsemi Hparts.
  change (String (Ascii.ascii_of_nat 44) "") with ",".
  generalize (join "," items) as text.
  intros text Hstrip Hne Hcomma Hsemi Hparts.
  unfold _parse_parent_nuclides.
  change (default "" (Some text)) with text. cbv zeta.
  by rewrite Hstrip, Hne, Hsemi, Hcomma.
Qed.

(** ** The decay-type filter as a factor *)

Lemma fold_add_scaled (c : Q) (chain_paths : list (path Q)) :
  forall a b : Q,
    (a == b * c)%Q ->
    (fold_left fadd
       (map (fun p => fmul (chain_branching_ratio p) c) chain_paths) a ==
     fold_left fadd
       (map (fun p => fmul (chain_branching_ratio p) f1) chain_paths) b * c)%Q.
Proof.
  induction chain_paths as [|p ps IH]; intros a b Hab; simpl; [done|].
  apply IH. rewrite Hab. ring.
Qed.

Lemma total_of_scaled (c : Q) (chain_paths : list (path Q)) :
  (total_of c chain_paths == total_of f1 chain_paths * c)%Q.
Proof. apply fold_add_scaled. simpl. ring. Qed.

Lemma details_paths {F : Type} `{!Arith F} (c : F)
    (chain_paths : list (path F)) :
  map pd_path (map (detail_of c) chain_paths) = chain_paths.
Proof.
  induction chain_paths as [|p ps IH]; simpl; [done|]. by rewrite IH.
Qed.

(** X13: the decay-type filter is one factor.  In exact arithmetic, when
    the aggregator answers both for a calculator with a decay-type filter
    and for the same calculator without it, the filtered branching ratio
    is the unfiltered one times the decay-type fraction, the unfiltered
    fraction is 1, and both answers list the same paths. *)
Theorem decay_filter_scales_the_unfiltered_ratio
    (rd_Nuclide : string -> option (nuclide Q)) (self : calculator Q)
    (parent target : string) (st st0 st' st0' : caches Q) (i i0 : info Q) :
  let unfiltered :=
    {| measured_nuclide := measured_nuclide self;
       measured_activity := measured_activity self;
       parent_nuclides := parent_nuclides self;
       decay_type := None;
       measured_activity_uncertainty := measured_activity_uncertainty self;
       include_paths := include_paths self |} in
  cache_ok rd_Nuclide self st ->
  cache_ok rd_Nuclide unfiltered st0 ->
  _get_branching_info rd_Nuclide self parent target st = (inr i, st') ->
  _get_branching_info rd_Nuclide unfiltered parent target st0 =
    (inr i0, st0') ->
  (info_branching_ratio i ==
   info_branching_ratio i0 * info_decay_type_fraction i)%Q /\
  info_decay_type_fraction i0 = 1%Q /\
  map pd_path (info_paths i) ≡ₚ map pd_path (info_paths i0).
Proof.
  intros unfiltered Hok Hok0 Hcall Hcall0.
  destruct (get_branching_info_refines rd_Nuclide self parent target st Hok)
    as (s1 & Hc & _).
  rewrite Hcall in Hc. injection Hc as Hi _. symmetry in Hi.
  destruct (get_branching_info_refines rd_Nuclide unfiltered parent target
              st0 Hok0) as (s2 & Hc0 & _).
  rewrite Hcall0 in Hc0. injection Hc0 as Hi0 _. symmetry in Hi0.
  apply nocache_success in Hi as (nuc & hl & Hn & _ & _ & _ & ->).
  apply nocache_success in Hi0 as (nuc0 & hl0 & Hn0 & _ & _ & _ & ->).
  simpl. split; [apply total_of_scaled|]. split; [done|].
  by rewrite !sort_desc_perm, !details_paths.
Qed.

(** ** The order of the ancestors *)

Section AncestorOrder.
Context {F : Type} `{!Arith F}.
Variable rd_Nuclide : string -> option (nuclide F).

Lemma loop_nocache_ext (self self' : calculator F) :
  (forall a, ancestor_result rd_Nuclide self' a =
             ancestor_result rd_Nuclide self a) ->
  forall parents results,
    calculate_loop_nocache rd_Nuclide self' parents results =
    calculate_loop_nocache rd_Nuclide self parents results.
Proof.
  intros Hext parents.
  induction parents as [|parent rest IH]; intros results; simpl; [done|].
  rewrite Hext. destruct (ancestor_result rd_Nuclide self parent); [done|].
  simpl. apply IH.
Qed.

Lemma loop_nocache_same_set self parents parents' results :
  (forall a, a ∈ parents <-> a ∈ parents') ->
  calculate_loop_nocache rd_Nuclide self parents ∅ = inr results ->
  calculate_loop_nocache rd_Nuclide self parents' ∅ = inr results.
Proof.
  intros Hset Hloop.
  destruct (calculate_loop_nocache rd_Nuclide self parents' ∅)
    as [e|final] eqn:Hloop'.
  - apply loop_nocache_abort in Hloop' as (a & Hin & Hres).
    apply Hset in Hin.
    destruct (loop_nocache_lookup rd_Nuclide self _ _ _ Hloop a)
      as [[_ (res & Hres' & _)]|[Hnin _]]; [congruence|done].
  - f_equal. apply map_eq. intros a.
    destruct (loop_nocache_lookup rd_Nuclide self _ _ _ Hloop a)
      as [[Hin (res & Hres & Hl)]|[Hnin Hl]];
      destruct (loop_nocache_lookup rd_Nuclide self _ _ _ Hloop' a)
        as [[Hin' (res' & Hres' & Hl')]|[Hnin' Hl']].
    + rewrite Hl, Hl'. congruence.
    + by apply Hset in Hin.
    + by apply Hset in Hin'.
    + by rewrite Hl, Hl'.
Qed.

(** X14: the dictionary [calculate] returns depends on the ancestors only
    as a set.  When it returns for one list of ancestors, it returns the
    same dictionary for any list with the same members, whatever their
    order and however often they are repeated, and whatever the caches
    hold at the start. *)
Theorem results_ignore_order_and_repetition self parents' st st' results :
  let reordered :=
    {| measured_nuclide := measured_nuclide self;
       measured_activity := measured_activity self;
       parent_nuclides := parents';
       decay_type := decay_type self;
       measured_activity_uncertainty := measured_activity_uncertainty self;
       include_paths := include_paths self |} in
  cache_ok rd_Nuclide self st ->
  cache_ok rd_Nuclide reordered st' ->
  (forall a, a ∈ parent_nuclides self <-> a ∈ parents') ->
  fst (calculate rd_Nuclide self st) = inr results ->
  fst (calculate rd_Nuclide reordered st') = inr results.
Proof.
  intros reordered Hok Hok' Hset Hcalc.
  destruct (calculate_refines rd_Nuclide self st Hok) as (s1 & Hc & _).
  rewrite Hc in Hcalc. simpl in Hcalc.
  destruct (calculate_refines rd_Nuclide reordered st' Hok')
    as (s2 & Hc' & _).
  rewrite Hc'. simpl. unfold calculate_nocache in *. simpl.
  rewrite (loop_nocache_ext self reordered) by done.
  by apply (loop_nocache_same_set self (parent_nuclides self)).
Qed.

End AncestorOrder.

(** ** The further properties on the demo network *)

Lemma results_keys_witness :
  exists results,
    fst (calculate demo_db demo_self_D empty_caches) = inr results /\
    forall a, is_Some (results !! a) <-> a ∈ parent_nuclides demo_self_D.
Proof.
  eexists. split; [reflexivity|].
  apply (results_keys_are_the_ancestors demo_db demo_self_D empty_caches).
  reflexivity.
Defined.


Lemma activity_times_ratio_witness :
  cache_ok demo_dbQ demo_self_BQ empty_caches /\
  exists results res,
    fst (calculate demo_dbQ demo_self_BQ empty_caches) = inr results /\
    results !! "A" = Some res /\
    error res = None /\
    (activity_Bq res * branching_ratio res ==
     measured_activity demo_self_BQ)%Q.
Proof.
  split; [apply cache_ok_empty|].
  eexists _, _. split; [reflexivity|].
  split; [vm_compute; reflexivity|]. split; [reflexivity|].
  eapply (proj2 activity_times_ratio_is_measured demo_dbQ demo_self_BQ
            empty_caches _ "A");
    [apply cache_ok_empty | reflexivity | vm_compute; reflexivity
    | reflexivity].
Defined.

Lemma mass_uncertainty_witness :
  cache_ok demo_dbQ demo_self_BQ empty_caches /\
  exists results res unc mass,
    fst (calculate demo_dbQ demo_self_BQ empty_caches) = inr results /\
    results !! "A" = Some res /\
    error res = None /\
    res_uncertainty res = Some unc /\
    mass_g res = Fin mass /\
    ~ (mass == 0)%Q /\
    exists mass_unc,
      mass_uncertainty_g unc = Fin mass_unc /\
      (mass_unc / mass == activity_uncertainty_Bq unc / activity_Bq res)%Q.
Proof.
  split; [apply cache_ok_empty|].
  eexists _, _, _, _. split; [reflexivity|].
  split; [vm_compute; reflexivity|]. split; [reflexivity|].
  split; [reflexivity|]. split; [reflexivity|].
  split; [vm_compute; discriminate|].
  eapply (proj2 mass_uncertainty_uses_the_mass_coefficient demo_dbQ
            demo_self_BQ empty_caches _ "A");
    [apply cache_ok_empty | reflexivity | vm_compute; reflexivity
    | reflexivity | reflexivity | reflexivity | reflexivity
    | vm_compute; discriminate].
Defined.

Lemma parents_parse_back_witness :
  2 <= length ["U-238"; "Ra-226, x"] /\
  Forall (fun x => x <> "" /\ str_strip x = x /\ str_contains ";" x = false)
    ["U-238"; "Ra-226, x"] /\
  _parse_parent_nuclides (Some "U-238;Ra-226, x") = ["U-238"; "Ra-226, x"].
Proof.
  assert (Forall
            (fun x => x <> "" /\ str_strip x = x /\
                      str_contains ";" x = false)
            ["U-238"; "Ra-226, x"]) as Hitems.
  { repeat apply Forall_cons_2; [| |apply Forall_nil_2];
      (split; [discriminate|split; vm_compute; reflexivity]). }
  split; [simpl; lia|]. split; [exact Hitems|].
  apply (semicolon_separated_parents_parse_back ["U-238"; "Ra-226, x"]);
    [simpl; lia|exact Hitems].
Defined.

Lemma decay_filter_witness :
  cache_ok demo_dbQ
    (demo_calculator 100%Q "D" ["A"] (Some "β-") None false) empty_caches /\
  cache_ok demo_dbQ
    (demo_calculator 100%Q "D" ["A"] None None false) empty_caches /\
  exists i i0 st' st0',
    _get_branching_info demo_dbQ
      (demo_calculator 100%Q "D" ["A"] (Some "β-") None false) "A" "D"
      empty_caches = (inr i, st') /\
    _get_branching_info demo_dbQ
      (demo_calculator 100%Q "D" ["A"] None None false) "A" "D"
      empty_caches = (inr i0, st0') /\
    (info_decay_type_fraction i == 3 # 4)%Q /\
    (info_branching_ratio i ==
     info_branching_ratio i0 * info_decay_type_fraction i)%Q.
Proof.
  split; [apply cache_ok_empty|]. split; [apply cache_ok_empty|].
  eexists _, _, _, _. split; [vm_compute; reflexivity|].
  split; [vm_compute; reflexivity|]. split; [vm_compute; reflexivity|].
  eapply (decay_filter_scales_the_unfiltered_ratio demo_dbQ
            (demo_calculator 100%Q "D" ["A"] (Some "β-") None false) "A" "D"
            empty_caches empty_caches);
    [apply cache_ok_empty | apply cache_ok_empty
    | vm_compute; reflexivity | vm_compute; reflexivity].
Defined.

Lemma order_witness :
  cache_ok demo_db demo_self_D empty_caches /\
  cache_ok demo_db
    (demo_calculator 100%float "D" ["D"; "A"; "A"; "E"; "B"] (Some "β-")
       (Some 5%float) true) empty_caches /\
  exists results,
    fst (calculate demo_db demo_self_D empty_caches) = inr results /\
    fst (calculate demo_db
           (demo_calculator 100%float "D" ["D"; "A"; "A"; "E"; "B"]
              (Some "β-") (Some 5%float) true) empty_caches) = inr results.
Proof.
  split; [apply cache_ok_empty|]. split; [apply cache_ok_empty|].
  eexists. split; [reflexivity|].
  apply (results_ignore_order_and_repetition demo_db demo_self_D
           ["D"; "A"; "A"; "E"; "B"] empty_caches empty_caches);
    [apply cache_ok_empty | apply cache_ok_empty | | reflexivity].
  intros a. simpl. rewrite !elem_of_cons, !elem_of_nil. tauto.
Defined.

Lemma comma_parents_witness :
  2 <= length ["Th-232"; "Ra 228"; "Ac-228"] /\
  Forall (fun x => x <> "" /\ str_strip x = x /\
                   str_contains "," x = false /\
                   str_contains ";" x = false)
    ["Th-232"; "Ra 228"; "Ac-228"] /\
  _parse_parent_nuclides (Some "Th-232,Ra 228,Ac-228") =
    ["Th-232"; "Ra 228"; "Ac-228"].
Proof.
  assert (Forall
            (fun x => x <> "" /\ str_strip x = x /\
                      str_contains "," x = false /\
                      str_contains ";" x = false)
            ["Th-232"; "Ra 228"; "Ac-228"]) as Hitems.
  { repeat apply Forall_cons_2; [| | |apply Forall_nil_2];
      (split; [discriminate|repeat split; vm_compute; reflexivity]). }
  split; [simpl; lia|]. split; [exact Hitems|].
  apply (comma_separated_parents_parse_back ["Th-232"; "Ra 228"; "Ac-228"]);
    [simpl; lia|exact Hitems].
Defined.

(** ** Names separated by white space *)

Lemma head_token_space rest :
  head_token whitespace (Ascii.ascii_of_nat 32 :: rest) = Some rest.
Proof.
  unfold whitespace. simpl. by rewrite drop_0.
Qed.

Lemma head_token_plain tokens b l :
  Forall (fun k => k <> []) tokens ->
  Forall (fun k => b ∉ k) tokens ->
  head_token tokens (b :: l) = None.
Proof.
  rewrite !Forall_forall. intros Hne Hb.
  apply head_token_None. intros k Hin [k' Hk].
  destruct k as [|x k]; [by apply (Hne [])|].
  injection Hk as -> _. apply (Hb _ Hin). by apply elem_of_cons; left.
Qed.

Lemma words_fuel_end fuel word : words_fuel fuel [] word = flush word.
Proof. by destruct fuel. Qed.

Lemma words_fuel_byte fuel c rest word :
  head_token whitespace (c :: rest) = None ->
  words_fuel (S fuel) (c :: rest) word = words_fuel fuel rest (word ++ [c]).
Proof. intros Hh. cbn [words_fuel]. by rewrite Hh. Qed.

Lemma words_fuel_token fuel l rest word :
  head_token whitespace l = Some rest ->
  words_fuel (S fuel) l word = flush word ++ words_fuel fuel rest [].
Proof. intros Hh. cbn [words_fuel]. by rewrite Hh. Qed.

(** Bytes that are in no white-space character go to the word under
    way. *)
Lemma words_fuel_plain a :
  Forall (fun b => Forall (fun k => b ∉ k) whitespace) a ->
  forall fuel rest word,
    length a <= fuel ->
    words_fuel fuel (a ++ rest) word =
      words_fuel (fuel - length a) rest (word ++ a).
Proof.
  intros Ha. induction Ha as [|b a Hb Ha IH]; intros fuel rest word Hfuel.
  - simpl. by rewrite Nat.sub_0_r, app_nil_r.
  - destruct fuel as [|fuel]; [simpl in Hfuel; lia|].
    simpl in Hfuel. rewrite <- app_comm_cons.
    rewrite words_fuel_byte
      by (by apply head_token_plain; [apply whitespace_nonempty|]).
    rewrite IH by lia. by rewrite <- app_assoc.
Qed.

Lemma words_of_join items :
  items <> [] ->
  Forall (fun x => x <> "" /\
                   Forall (fun b => Forall (fun k => b ∉ k) whitespace)
                     (String.list_ascii_of_string x)) items ->
  forall fuel,
    length (String.list_ascii_of_string (join " " items)) <= fuel ->
    words_fuel fuel (String.list_ascii_of_string (join " " items)) [] =
      map String.list_ascii_of_string items.
Proof.
  intros Hne Hall.
  induction Hall as [|x items [Hx Hplain] Hall IH]; [done|].
  intros fuel Hfuel.
  assert (flush (String.list_ascii_of_string x) =
            [String.list_ascii_of_string x]) as Hflush.
  { destruct (String.list_ascii_of_string x) eqn:Hb; [|done].
    by apply bytes_nil in Hb. }
  destruct items as [|y rest].
  - simpl in *.
    rewrite <- (app_nil_r (String.list_ascii_of_string x)) at 1.
    rewrite words_fuel_plain by done.
    by rewrite words_fuel_end.
  - change " " with (String (Ascii.ascii_of_nat 32) "") in *.
    rewrite bytes_join_cons in *. rewrite length_app in Hfuel.
    cbn [length] in Hfuel.
    rewrite words_fuel_plain by (done || lia). simpl app.
    destruct (fuel - length (String.list_ascii_of_string x)) as [|fuel']
      eqn:Hf; [lia|].
    rewrite (words_fuel_token _ _ _ _ (head_token_space _)), Hflush.
    rewrite IH by (done || lia). done.
Qed.

Lemma plain_edges l :
  (exists b l', l = b :: l' /\ Forall (fun k => b ∉ k) whitespace) ->
  (exists b l', reverse l = b :: l' /\ Forall (fun k => b ∉ k) whitespace) ->
  strip_bytes l = l.
Proof.
  intros (b & l' & -> & Hb) (b' & l'' & Hrev & Hb').
  apply strip_bytes_fixed. split.
  - by apply head_token_plain; [apply whitespace_nonempty|].
  - unfold clean_right. rewrite Hrev.
    apply head_token_plain; [exact whitespace_reversed_nonempty|].
    apply Forall_fmap. eapply Forall_impl; [exact Hb'|]. simpl.
    intros k Hk Hin. apply Hk. by rewrite elem_of_reverse in Hin.
Qed.

Lemma plain_first x rest :
  x <> "" ->
  Forall (fun b => Forall (fun k => b ∉ k) whitespace)
    (String.list_ascii_of_string x) ->
  exists b l', String.list_ascii_of_string x ++ rest = b :: l' /\
               Forall (fun k => b ∉ k) whitespace.
Proof.
  intros Hne Hplain.
  destruct (String.list_ascii_of_string x) as [|b l] eqn:Hb;
    [by apply bytes_nil in Hb|].
  exists b, (l ++ rest). split; [done|]. by apply Forall_cons in Hplain as [? _].
Qed.

Lemma plain_last x init :
  x <> "" ->
  Forall (fun b => Forall (fun k => b ∉ k) whitespace)
    (String.list_ascii_of_string x) ->
  exists b l', reverse (init ++ String.list_ascii_of_string x) = b :: l' /\
               Forall (fun k => b ∉ k) whitespace.
Proof.
  intros Hne Hplain. rewrite reverse_app.
  destruct (reverse (String.list_ascii_of_string x)) as [|b l] eqn:Hb.
  - apply (f_equal reverse) in Hb. rewrite reverse_involutive in Hb.
    by apply bytes_nil in Hb.
  - exists b, (l ++ reverse init). split; [done|].
    rewrite Forall_forall in Hplain. apply Hplain.
    apply elem_of_reverse. rewrite Hb. by apply elem_of_cons; left.
Qed.

(** X15: without semicolon and comma the text is split at white space.
    One name, or several names with single spaces between them, parse
    back to the same list, when each name is non-empty and has no
    semicolon, no comma and no byte of a white-space character. *)
Theorem space_separated_parents_parse_back (items : list string) :
  items <> [] ->
  Forall (fun x => x <> "" /\
                   Forall (fun b => Forall (fun k => b ∉ k) whitespace)
                     (String.list_ascii_of_string x) /\
                   str_contains ";" x = false /\
                   str_contains "," x = false) items ->
  _parse_parent_nuclides (Some (join " " items)) = items.
Proof.
  intros Hne Hall.
  assert (Forall (fun x => x <> "" /\
                   Forall (fun b => Forall (fun k => b ∉ k) whitespace)
                     (String.list_ascii_of_string x)) items) as Hplain
    by (eapply Forall_impl; [exact Hall|]; by intros x (? & ? & _)).
  assert (Forall (fun x => x <> "" /\ str_strip x = x) items) as Hclean.
  { eapply Forall_impl; [exact Hplain|]. intros x [Hx Hp].
    split; [done|]. unfold str_strip. rewrite plain_edges.
    - apply String.string_of_list_ascii_of_string.
    - rewrite <- (app_nil_r (String.list_ascii_of_string x)).
      by apply plain_first.
    - by apply (plain_last x []). }
  assert (forall d, d <> Ascii.ascii_of_nat 32 ->
            Forall (fun x => str_contains (String d "") x = false) items ->
            str_contains (String d "") (join " " items) = false) as Hlacks.
  { intros d Hd Hitems.
    destruct (str_contains (String d "") (join " " items)) eqn:Hc; [|done].
    apply str_contains_char in Hc.
    apply (join_avoids (Ascii.ascii_of_nat 32)) in Hc; [done|done|].
    eapply Forall_impl; [exact Hitems|]. intros x Hx. by apply lacks_char. }
  assert (str_contains ";" (join " " items) = false) as Hsemi.
  { apply (Hlacks (Ascii.ascii_of_nat 59)); [discriminate|].
    eapply Forall_impl; [exact Hall|]. by intros x (_ & _ & ? & _). }
  assert (str_contains "," (join " " items) = false) as Hcomma.
  { apply (Hlacks (Ascii.ascii_of_nat 44)); [discriminate|].
    eapply Forall_impl; [exact Hall|]. by intros x (_ & _ & _ & ?). }
  assert (str_strip (join " " items) = join " " items) as Hstrip.
  { unfold str_strip. rewrite plain_edges.
    - apply String.string_of_list_ascii_of_string.
    - destruct items as [|x [|y rest]]; [done| |].
      + apply Forall_cons in Hplain as [[Hx Hp] _]. simpl.
        rewrite <- (app_nil_r (String.list_ascii_of_string x)).
        by apply plain_first.
      + apply Forall_cons in Hplain as [[Hx Hp] _].
        change " " with (String (Ascii.ascii_of_nat 32) "").
        rewrite bytes_join_cons. by apply plain_first.
    - destruct (exists_last Hne) as (init & last & ->).
      apply Forall_app in Hplain as [_ Hlast].
      apply Forall_cons in Hlast as [[Hx Hp] _].
      destruct init as [|y init].
      + simpl. by apply (plain_last last []).
      + change " " with (String (Ascii.ascii_of_nat 32) "").
        rewrite bytes_join_snoc by done.
        rewrite (cons_middle (Ascii.ascii_of_nat 32)), app_assoc.
        by apply plain_last. }
  assert (join " " items <> "") as Hnonempty.
  { destruct items as [|x [|y rest]]; [done| |].
    - apply Forall_cons in Hplain as [[Hx _] _]. done.
    - intros Hnil. apply (f_equal String.list_ascii_of_string) in Hnil.
      change " " with (String (Ascii.ascii_of_nat 32) "") in Hnil.
      rewrite bytes_join_cons in Hnil.
      by destruct (String.list_ascii_of_string x). }
  apply String.eqb_neq in Hnonempty.
  pose proof (words_of_join items Hne Hplain _ (le_n _)) as Hwords.
  revert Hstrip Hnonempty Hsemi Hcomma Hwords.
  generalize (join " " items) as text.
  intros text Hstrip Hnonempty Hsemi Hcomma Hwords.
  unfold _parse_parent_nuclides.
  change (default "" (Some text)) with text. cbv zeta.
  rewrite Hstrip, Hnonempty, Hsemi, Hcomma. unfold str_split_ws. cbv zeta.
  rewrite Hwords. by rewrite strings_of_bytes, keep_stripped.
Qed.

Lemma space_parents_witness :
  ["U-238"; "Ra-226"] <> [] /\
  Forall (fun x => x <> "" /\
                   Forall (fun b => Forall (fun k => b ∉ k) whitespace)
                     (String.list_ascii_of_string x) /\
                   str_contains ";" x = false /\
                   str_contains "," x = false) ["U-238"; "Ra-226"] /\
  _parse_parent_nuclides (Some "U-238 Ra-226") = ["U-238"; "Ra-226"] /\
  _parse_parent_nuclides (Some "U-238") = ["U-238"].
Proof.
  assert (forall items,
            bool_decide
              (Forall (fun x => x <> "" /\
                   Forall (fun b => Forall (fun k => b ∉ k) whitespace)
                     (String.list_ascii_of_string x) /\
                   str_contains ";" x = false /\
                   str_contains "," x = false) items) = true ->
            Forall (fun x => x <> "" /\
                   Forall (fun b => Forall (fun k => b ∉ k) whitespace)
                     (String.list_ascii_of_string x) /\
                   str_contains ";" x = false /\
                   str_contains "," x = false) items) as Hdec
    by (intros items; apply bool_decide_eq_true_1).
  split; [discriminate|]. split; [apply Hdec; vm_compute; reflexivity|].
  split.
  - apply (space_separated_parents_parse_back ["U-238"; "Ra-226"]);
      [discriminate|apply Hdec; vm_compute; reflexivity].
  - apply (space_separated_parents_parse_back ["U-238"]);
      [discriminate|apply Hdec; vm_compute; reflexivity].
Defined.
